(** * Real-time audience voting: statistics, vote-status guard, polling
      subscriptions and the JSON-file backend.

    Shallow embedding of
    - [src/utils/stats.ts]        ([calculateStats]),
    - [src/utils/voteStatus.ts]   ([checkVoteStatus], [markAsVoted], [clearVoteStatus]),
    - [src/services/database.ts]  (the three polling subscriptions),
    - [server/server.cjs]         (the vote and event handlers).

    JavaScript numbers are binary64 floats ([PrimFloat]); counts and lengths
    are naturals, converted where the source divides.  JavaScript objects
    used as dictionaries are finite maps of their own properties, keyed by
    strings; the server looks its events and questions up with [obj[key]],
    which also finds what an object inherits from [Object.prototype]
    ([jsLookup]).  Stored events carry both of their id fields ([null] or
    a string).  The insertion-ordered [Map] of [calculateStats] is an
    association list. *)

From Stdlib Require Import Floats Uint63.
From stdpp Require Import gmap strings list fin_maps.

Open Scope string_scope.

(* ===================================================================== *)
(** * Data model ([src/types]) *)
(* ===================================================================== *)

Module Vote.
Record t := mk {
  id : string;
  questionId : string;
  optionId : string;
  deviceId : string;
  timestamp : string
}.
End Vote.

Module Option.
Record t := mk {
  id : string;
  label : string;
  color : option string
}.
End Option.

Module OptionStat.
Record t := mk {
  optionId : string;
  label : string;
  count : nat;
  percentage : float
}.
End OptionStat.

Module VoteStats.
Record t := mk {
  totalVotes : nat;
  options : list OptionStat.t
}.
End VoteStats.

(* ===================================================================== *)
(** * Stats calculator ([src/utils/stats.ts]) *)
(* ===================================================================== *)

(** The JavaScript [Map<string, number>]: keys in insertion order; [set] on
    a key already present replaces its value and keeps its position. *)
Definition JsMap (V : Type) : Type := list (string * V).

Fixpoint map_get {V} (k : string) (m : JsMap V) : option V :=
  match m with
  | [] => None
  | (k', v) :: m' => if bool_decide (k' = k) then Some v else map_get k m'
  end.

Fixpoint map_set {V} (k : string) (v : V) (m : JsMap V) : JsMap V :=
  match m with
  | [] => [(k, v)]
  | (k', v') :: m' =>
      if bool_decide (k' = k) then (k, v) :: m' else (k', v') :: map_set k v m'
  end.

(** A count as a JavaScript number (exact below 2^53, which no array
    length reaches). *)
Definition number (n : nat) : float :=
  PrimFloat.of_uint63 (Uint63.of_Z (Z.of_nat n)).

(** [totalVotes > 0 ? (count / totalVotes) * 100 : 0] *)
Definition percentageOf (count totalVotes : nat) : float :=
  if (0 <? totalVotes)%nat
  then (number count / number totalVotes * 100)%float
  else 0%float.

(** The first loop: [countMap.set(vote.optionId, (countMap.get(vote.optionId) || 0) + 1)]. *)
Definition countVote (countMap : JsMap nat) (vote : Vote.t) : JsMap nat :=
  let currentCount := default 0 (map_get (Vote.optionId vote) countMap) in
  map_set (Vote.optionId vote) (currentCount + 1) countMap.

Definition countVotes (votes : list Vote.t) : JsMap nat :=
  fold_left countVote votes [].

(** [optionStats.push(...)] in the branch over the supplied options. *)
Definition pushOption (countMap : JsMap nat) (totalVotes : nat)
    (optionStats : list OptionStat.t) (option : Option.t) : list OptionStat.t :=
  let count := default 0 (map_get (Option.id option) countMap) in
  let percentage := percentageOf count totalVotes in
  optionStats ++ [ {| OptionStat.optionId := Option.id option;
                      OptionStat.label := Option.label option;
                      OptionStat.count := count;
                      OptionStat.percentage := percentage |} ].

(** [optionStats.push(...)] in the branch over the entries of [countMap]. *)
Definition pushEntry (totalVotes : nat)
    (optionStats : list OptionStat.t) (entry : string * nat) : list OptionStat.t :=
  let '(optionId, count) := entry in
  let percentage := percentageOf count totalVotes in
  optionStats ++ [ {| OptionStat.optionId := optionId;
                      OptionStat.label := optionId;
                      OptionStat.count := count;
                      OptionStat.percentage := percentage |} ].

(** [calculateStats(votes, options = [])]; an omitted option list is [[]]. *)
Definition calculateStats (votes : list Vote.t) (options : list Option.t)
    : VoteStats.t :=
  let totalVotes := length votes in
  let countMap := countVotes votes in
  let optionStats :=
    if (0 <? length options)%nat
    then fold_left (pushOption countMap totalVotes) options []
    else fold_left (pushEntry totalVotes) countMap [] in
  {| VoteStats.totalVotes := totalVotes; VoteStats.options := optionStats |}.

(** [stats.options.reduce((sum, opt) => sum + opt.count, 0)] *)
Definition sumCounts (stats : VoteStats.t) : nat :=
  fold_left (λ sum opt, sum + OptionStat.count opt) (VoteStats.options stats) 0.

(** The number of votes of a list that name an option. *)
Definition votesFor (optionId : string) (votes : list Vote.t) : nat :=
  length (filter (λ v, Vote.optionId v = optionId) votes).

(** The sum of the counts held in a count map. *)
Definition sumValues (m : JsMap nat) : nat := sum_list (snd <$> m).

(** The entry the source builds for one supplied option. *)
Definition statOfOption (votes : list Vote.t) (option : Option.t) : OptionStat.t :=
  {| OptionStat.optionId := Option.id option;
     OptionStat.label := Option.label option;
     OptionStat.count := votesFor (Option.id option) votes;
     OptionStat.percentage :=
       percentageOf (votesFor (Option.id option) votes) (length votes) |}.

(* ===================================================================== *)
(** * Vote-status guard ([src/utils/voteStatus.ts]) *)
(* ===================================================================== *)

(** [localStorage]: a string dictionary that throws on every access when
    the browser makes it unavailable. *)
Record Storage := mkStorage {
  items : gmap string string;
  available : bool
}.

Inductive result (A : Type) : Type :=
  | Return (a : A)
  | Throw.
Arguments Return {A} a.
Arguments Throw {A}.

Definition getItem (key : string) (ls : Storage) : result (option string) :=
  if available ls then Return (items ls !! key) else Throw.

Definition setItem (key value : string) (ls : Storage) : result Storage :=
  if available ls
  then Return {| items := <[key := value]> (items ls); available := available ls |}
  else Throw.

Definition removeItem (key : string) (ls : Storage) : result Storage :=
  if available ls
  then Return {| items := delete key (items ls); available := available ls |}
  else Throw.

Definition VOTE_STATUS_PREFIX : string := "vote_status_".

Definition getStorageKey (questionId : string) : string :=
  VOTE_STATUS_PREFIX ++ questionId.

(** [!s] on a string: only the empty string is falsy. *)
Definition falsy (s : string) : bool := bool_decide (s = "").

Definition checkVoteStatus (questionId : string) (ls : Storage) : bool :=
  if falsy questionId then false
  else
    let key := getStorageKey questionId in
    match getItem key ls with
    | Return value => bool_decide (value = Some "true")
    | Throw => false
    end.

Definition markAsVoted (questionId : string) (ls : Storage) : bool * Storage :=
  if falsy questionId then (false, ls)
  else
    let key := getStorageKey questionId in
    match setItem key "true" ls with
    | Return ls' => (true, ls')
    | Throw => (false, ls)
    end.

Definition clearVoteStatus (questionId : string) (ls : Storage) : Storage :=
  if falsy questionId then ls
  else
    let key := getStorageKey questionId in
    match removeItem key ls with
    | Return ls' => ls'
    | Throw => ls
    end.

(** Histories of guard calls, run against one storage. *)
Inductive GuardCall :=
  | Check (questionId : string)
  | Mark (questionId : string)
  | Clear (questionId : string).

Definition guardStep (ls : Storage) (c : GuardCall) : Storage :=
  match c with
  | Check q => ls
  | Mark q => snd (markAsVoted q ls)
  | Clear q => clearVoteStatus q ls
  end.

Definition guardRun (calls : list GuardCall) (ls : Storage) : Storage :=
  fold_left guardStep calls ls.

(** [markAsVoted] called [n] times in a row. *)
Fixpoint markTimes (n : nat) (questionId : string) (ls : Storage) : Storage :=
  match n with
  | O => ls
  | S n' => markTimes n' questionId (snd (markAsVoted questionId ls))
  end.

(** A fresh browser profile. *)
Definition emptyStorage : Storage := {| items := ∅; available := true |}.

(* ===================================================================== *)
(** * Backend ([server/server.cjs]) *)
(* ===================================================================== *)

Module Event.
Record t := mk {
  id : string;
  name : string;
  currentQuestionId : option string;  (* [None] is JSON [null] *)
  clearedQuestionId : option string
}.
End Event.

Module Question.
Record t := mk {
  id : string;
  eventId : string;
  title : string;
  options : list Option.t;
  order : Z
}.
End Question.

Record EventsData := mkEventsData {
  events : gmap string Event.t;
  questions : gmap string Question.t
}.

Record VotesData := mkVotesData {
  votes : list Vote.t
}.

(** The properties a handler may have added to a built-in object of the
    server process: never written ([None]), or holding [null] or a string. *)
Record AddedProps := mkAddedProps {
  added_currentQuestionId : option (option string);
  added_clearedQuestionId : option (option string)
}.

(** What a request finds and leaves: the two JSON files of the data
    directory (which exists; [None] is a file that is missing or does not
    parse), and the properties earlier requests have added to
    [Object.prototype] (under ["__proto__"]) and to its methods (under their
    names). *)
Record Files := mkFiles {
  EVENTS_FILE : option EventsData;
  VOTES_FILE : option VotesData;
  BUILTINS : gmap string AddedProps
}.

Definition readEventsData (fs : Files) : EventsData :=
  match EVENTS_FILE fs with
  | Some data => data
  | None => {| events := ∅; questions := ∅ |}
  end.

Definition readVotesData (fs : Files) : VotesData :=
  match VOTES_FILE fs with
  | Some data => data
  | None => {| votes := [] |}
  end.

Definition writeEventsData (data : EventsData) (fs : Files) : Files :=
  {| EVENTS_FILE := Some data; VOTES_FILE := VOTES_FILE fs; BUILTINS := BUILTINS fs |}.

Definition writeVotesData (data : VotesData) (fs : Files) : Files :=
  {| EVENTS_FILE := EVENTS_FILE fs; VOTES_FILE := Some data; BUILTINS := BUILTINS fs |}.

(** The bodies the handlers answer with: [{ error }], a vote record (with
    [updated: true] when the flag is set), [{ success: true }], and what
    [res.json] makes of a value that is no stored record (a built-in
    function, [Object.prototype], or a string added to it). *)
Inductive Json :=
  | ErrorJson (error : string)
  | VoteJson (vote : Vote.t) (updated : bool)
  | SuccessJson
  | InheritedJson.

Record Response := mkResponse {
  status : nat;
  json : Json
}.

(** A field of a JSON request body: absent, or a string.  [!field] holds
    for an absent field and for the empty string. *)
Definition jsFalsy (field : option string) : bool :=
  match field with
  | None => true
  | Some s => falsy s
  end.

Definition str (field : option string) : string := default "" field.

(** [data.events] and [data.questions] are plain objects: [obj[key]] finds
    an own property, and otherwise what every object inherits from
    [Object.prototype]: its methods, itself (["__proto__"]), and the
    properties that handlers have added to it. *)
Definition prototypeNames : list string :=
  ["constructor"; "__defineGetter__"; "__defineSetter__"; "hasOwnProperty";
   "__lookupGetter__"; "__lookupSetter__"; "isPrototypeOf";
   "propertyIsEnumerable"; "toString"; "valueOf"; "__proto__"; "toLocaleString"].

Inductive Inherited :=
  | Member (name : string)              (* a method, or [Object.prototype] itself *)
  | Primitive (value : option string)   (* an added property: [null] or a string *)
  | Nothing.                            (* [undefined] *)

Definition addedTo (name : string) (builtins : gmap string AddedProps) : AddedProps :=
  default {| added_currentQuestionId := None; added_clearedQuestionId := None |}
          (builtins !! name).

Definition inherited (key : string) (builtins : gmap string AddedProps) : Inherited :=
  if bool_decide (key ∈ prototypeNames) then Member key
  else if bool_decide (key = "currentQuestionId") then
    match added_currentQuestionId (addedTo "__proto__" builtins) with
    | Some value => Primitive value
    | None => Nothing
    end
  else if bool_decide (key = "clearedQuestionId") then
    match added_clearedQuestionId (addedTo "__proto__" builtins) with
    | Some value => Primitive value
    | None => Nothing
    end
  else Nothing.

Definition jsLookup {A} (obj : gmap string A) (key : string)
    (builtins : gmap string AddedProps) : A + Inherited :=
  match obj !! key with
  | Some a => inl a
  | None => inr (inherited key builtins)
  end.

(** The test [if (value)] on an inherited value. *)
Definition truthy (found : Inherited) : bool :=
  match found with
  | Member _ => true
  | Primitive value => negb (jsFalsy value)
  | Nothing => false
  end.

(** [found.clearedQuestionId]: the property of the built-in object itself
    when it has been added, otherwise the one it inherits from
    [Object.prototype]; [undefined] reads as [null]. *)
Definition clearedOf (found : Inherited) (builtins : gmap string AddedProps)
    : option string :=
  match found with
  | Member name =>
      match added_clearedQuestionId (addedTo name builtins) with
      | Some value => value
      | None => default None (added_clearedQuestionId (addedTo "__proto__" builtins))
      end
  | Primitive _ => default None (added_clearedQuestionId (addedTo "__proto__" builtins))
  | Nothing => None
  end.

(** [found.currentQuestionId = value] and [found.clearedQuestionId = value]:
    a built-in object takes the property; on a string the assignment is
    ignored (the file is not in strict mode). *)
Definition setCurrentOn (found : Inherited) (value : option string) (fs : Files) : Files :=
  match found with
  | Member name =>
      {| EVENTS_FILE := EVENTS_FILE fs;
         VOTES_FILE := VOTES_FILE fs;
         BUILTINS :=
           <[name := {| added_currentQuestionId := Some value;
                        added_clearedQuestionId :=
                          added_clearedQuestionId (addedTo name (BUILTINS fs)) |}]>
             (BUILTINS fs) |}
  | _ => fs
  end.

Definition setClearedOn (found : Inherited) (value : option string) (fs : Files) : Files :=
  match found with
  | Member name =>
      {| EVENTS_FILE := EVENTS_FILE fs;
         VOTES_FILE := VOTES_FILE fs;
         BUILTINS :=
           <[name := {| added_currentQuestionId :=
                          added_currentQuestionId (addedTo name (BUILTINS fs));
                        added_clearedQuestionId := Some value |}]>
             (BUILTINS fs) |}
  | _ => fs
  end.

(** [Array.prototype.findIndex]: the first index whose element satisfies
    the predicate, [-1] when there is none. *)
Fixpoint findIndexFrom {A} (p : A → bool) (l : list A) (i : Z) : Z :=
  match l with
  | [] => (-1)%Z
  | x :: l' => if p x then i else findIndexFrom p l' (i + 1)%Z
  end.

Definition findIndex {A} (p : A → bool) (l : list A) : Z := findIndexFrom p l 0%Z.

(** What the handler reads from the clock and the random generator:
    [Date.now()], [Math.random().toString(36).substr(2, 9)] and
    [new Date().toISOString()]. *)
Record Env := mkEnv {
  dateNow : string;
  randomSuffix : string;
  isoString : string
}.

Record VoteBody := mkVoteBody {
  body_questionId : option string;
  body_optionId : option string;
  body_deviceId : option string
}.

Definition sameVoter (questionId deviceId : string) (v : Vote.t) : bool :=
  bool_decide (Vote.questionId v = questionId) && bool_decide (Vote.deviceId v = deviceId).

Definition revote (optionId timestamp : string) (v : Vote.t) : Vote.t :=
  {| Vote.id := Vote.id v;
     Vote.questionId := Vote.questionId v;
     Vote.optionId := optionId;
     Vote.deviceId := Vote.deviceId v;
     Vote.timestamp := timestamp |}.

(** [app.post('/api/votes', ...)] *)
Definition postVotes (env : Env) (body : VoteBody) (fs : Files) : Response * Files :=
  if jsFalsy (body_questionId body) || jsFalsy (body_optionId body)
     || jsFalsy (body_deviceId body)
  then ({| status := 400; json := ErrorJson "Missing required fields" |}, fs)
  else
    let questionId := str (body_questionId body) in
    let optionId := str (body_optionId body) in
    let deviceId := str (body_deviceId body) in
    let data := readVotesData fs in
    let existingVoteIndex := findIndex (sameVoter questionId deviceId) (votes data) in
    if bool_decide (existingVoteIndex ≠ (-1)%Z) then
      let i := Z.to_nat existingVoteIndex in
      match votes data !! i with
      | Some existing =>
          let updated := revote optionId (isoString env) existing in
          let data' := {| votes := <[i := updated]> (votes data) |} in
          ({| status := 200; json := VoteJson updated true |}, writeVotesData data' fs)
      | None =>
          (* no element at the index: the assignment throws *)
          ({| status := 500; json := ErrorJson "TypeError" |}, fs)
      end
    else
      let vote :=
        {| Vote.id := "vote_" ++ dateNow env ++ "_" ++ randomSuffix env;
           Vote.questionId := questionId;
           Vote.optionId := optionId;
           Vote.deviceId := deviceId;
           Vote.timestamp := isoString env |} in
      let data' := {| votes := votes data ++ [vote] |} in
      ({| status := 201; json := VoteJson vote false |}, writeVotesData data' fs).

(** A sequence of [POST /api/votes] requests, served one after the other. *)
Definition postVotesAll (requests : list (Env * VoteBody)) (fs : Files) : Files :=
  fold_left (λ fs r, snd (postVotes r.1 r.2 fs)) requests fs.

(** [app.get('/api/questions/:questionId/votes', ...)] *)
Definition getVotes (questionId : string) (fs : Files) : list Vote.t :=
  filter (λ v, Vote.questionId v = questionId) (votes (readVotesData fs)).

Definition setCurrentQuestionId (questionId : option string) (e : Event.t) : Event.t :=
  {| Event.id := Event.id e;
     Event.name := Event.name e;
     Event.currentQuestionId := questionId;
     Event.clearedQuestionId := Event.clearedQuestionId e |}.

Definition setClearedQuestionId (questionId : option string) (e : Event.t) : Event.t :=
  {| Event.id := Event.id e;
     Event.name := Event.name e;
     Event.currentQuestionId := Event.currentQuestionId e;
     Event.clearedQuestionId := questionId |}.

(** [app.put('/api/events/:eventId/current-question', ...)] *)
Definition putCurrentQuestion (eventId : string) (questionId : option string)
    (fs : Files) : Response * Files :=
  if jsFalsy questionId
  then ({| status := 400; json := ErrorJson "Missing questionId" |}, fs)
  else
    let data := readEventsData fs in
    match jsLookup (events data) eventId (BUILTINS fs) with
    | inl event =>
        let data' :=
          {| events := <[eventId := setCurrentQuestionId questionId event]> (events data);
             questions := questions data |} in
        ({| status := 200; json := SuccessJson |}, writeEventsData data' fs)
    | inr found =>
        if truthy found
        then ({| status := 200; json := SuccessJson |},
              writeEventsData data (setCurrentOn found questionId fs))
        else ({| status := 404; json := ErrorJson "Event not found" |}, fs)
    end.

(** [app.delete('/api/questions/:questionId/votes', ...)].  [eventId] is
    [question.eventId] when [question] is truthy: a value the questions
    object inherits has none, and [events[undefined]] is
    [events["undefined"]]. *)
Definition deleteVotes (questionId : string) (fs : Files) : Response * Files :=
  let votesData := readVotesData fs in
  let eventsData := readEventsData fs in
  let votesData' :=
    {| votes := filter (λ v, Vote.questionId v ≠ questionId) (votes votesData) |} in
  let fs := writeVotesData votesData' fs in
  let eventId : option string :=
    match jsLookup (questions eventsData) questionId (BUILTINS fs) with
    | inl question => Some (Question.eventId question)
    | inr found => if truthy found then Some "undefined" else None
    end in
  let fs :=
    match eventId with
    | None => fs
    | Some eventId =>
        match jsLookup (events eventsData) eventId (BUILTINS fs) with
        | inl event =>
            writeEventsData
              {| events := <[eventId := setClearedQuestionId (Some questionId) event]>
                             (events eventsData);
                 questions := questions eventsData |} fs
        | inr found =>
            if truthy found
            then writeEventsData eventsData (setClearedOn found (Some questionId) fs)
            else fs
        end
    end in
  ({| status := 200; json := SuccessJson |}, fs).

(** [app.post('/api/events/:eventId/clear-notification', ...)] *)
Definition postClearNotification (eventId : string) (fs : Files) : Response * Files :=
  let data := readEventsData fs in
  let fs :=
    match jsLookup (events data) eventId (BUILTINS fs) with
    | inl event =>
        writeEventsData
          {| events := <[eventId := setClearedQuestionId None event]> (events data);
             questions := questions data |} fs
    | inr found =>
        if truthy found
        then writeEventsData data (setClearedOn found None fs)
        else fs
    end in
  ({| status := 200; json := SuccessJson |}, fs).

(** The pairs the backend keeps unique. *)
Definition voterKey (v : Vote.t) : string * string :=
  (Vote.questionId v, Vote.deviceId v).

Definition oneVotePerVoter (fs : Files) : Prop :=
  NoDup (voterKey <$> votes (readVotesData fs)).

(* ===================================================================== *)
(** * Polling subscriptions ([src/services/database.ts]) *)
(* ===================================================================== *)

(** One client runs single-threaded: what happens to a subscription is a
    sequence of events.  A fetch is issued at one event and its promise
    settles at a later one, in any order the network chooses. *)
Inductive Fetched (A : Type) : Type :=
  | Ok (payload : A)     (* [response.ok], with the parsed JSON *)
  | Failed.              (* non-2xx answer, or the promise rejects *)
Arguments Ok {A} payload.
Arguments Failed {A}.

Inductive PollEvent (A : Type) : Type :=
  | Tick                       (* the [setInterval] handler runs *)
  | Settle (r : Fetched A)     (* one fetch in flight settles *)
  | Unsubscribe.               (* the returned function is called *)
Arguments Tick {A}.
Arguments Settle {A} r.
Arguments Unsubscribe {A}.

(** [event.currentQuestionId || null] *)
Definition orNull (field : option string) : option string :=
  if jsFalsy field then None else field.

Module VotesSub.
(** The closure of [subscribeToVotes], with the calls made to [callback]
    (oldest first). *)
Record t := mk {
  isSubscribed : bool;
  intervalId : bool;          (* the interval timer is still set *)
  inFlight : nat;             (* fetches issued and not yet settled *)
  callback : list (list Vote.t)
}.
End VotesSub.

(** State when [subscribeToVotes] returns: the flag is set, [fetchVotes()]
    has been called once and the timer is started. *)
Definition subscribeToVotes : VotesSub.t :=
  {| VotesSub.isSubscribed := true;
     VotesSub.intervalId := true;
     VotesSub.inFlight := 1;
     VotesSub.callback := [] |}.

(** The rest of [fetchVotes] once its fetch has settled. *)
Definition fetchVotes (r : Fetched (list Vote.t)) (s : VotesSub.t) : VotesSub.t :=
  match r with
  | Ok votes =>
      if VotesSub.isSubscribed s
      then {| VotesSub.isSubscribed := VotesSub.isSubscribed s;
              VotesSub.intervalId := VotesSub.intervalId s;
              VotesSub.inFlight := VotesSub.inFlight s;
              VotesSub.callback := VotesSub.callback s ++ [votes] |}
      else s
  | Failed => s
  end.

Definition votesStep (s : VotesSub.t) (e : PollEvent (list Vote.t)) : VotesSub.t :=
  match e with
  | Tick =>
      if VotesSub.intervalId s && VotesSub.isSubscribed s
      then {| VotesSub.isSubscribed := VotesSub.isSubscribed s;
              VotesSub.intervalId := VotesSub.intervalId s;
              VotesSub.inFlight := S (VotesSub.inFlight s);
              VotesSub.callback := VotesSub.callback s |}
      else s
  | Settle r =>
      match VotesSub.inFlight s with
      | O => s
      | S n =>
          fetchVotes r {| VotesSub.isSubscribed := VotesSub.isSubscribed s;
                          VotesSub.intervalId := VotesSub.intervalId s;
                          VotesSub.inFlight := n;
                          VotesSub.callback := VotesSub.callback s |}
      end
  | Unsubscribe =>
      {| VotesSub.isSubscribed := false;
         VotesSub.intervalId := false;
         VotesSub.inFlight := VotesSub.inFlight s;
         VotesSub.callback := VotesSub.callback s |}
  end.

Definition votesRun (es : list (PollEvent (list Vote.t))) (s : VotesSub.t) : VotesSub.t :=
  fold_left votesStep es s.

Module QuestionSub.
(** The closure of [subscribeToCurrentQuestion]. *)
Record t := mk {
  isSubscribed : bool;
  lastQuestionId : option string;
  intervalId : bool;
  inFlight : nat;
  callback : list (option string)
}.
End QuestionSub.

Definition subscribeToCurrentQuestion : QuestionSub.t :=
  {| QuestionSub.isSubscribed := true;
     QuestionSub.lastQuestionId := None;
     QuestionSub.intervalId := true;
     QuestionSub.inFlight := 1;
     QuestionSub.callback := [] |}.

(** The rest of [fetchCurrentQuestion] once its fetch has settled; the
    payload is the [currentQuestionId] field of the event. *)
Definition fetchCurrentQuestion (r : Fetched (option string)) (s : QuestionSub.t)
    : QuestionSub.t :=
  match r with
  | Ok currentQuestionId =>
      let currentId := orNull currentQuestionId in
      if QuestionSub.isSubscribed s
         && bool_decide (currentId ≠ QuestionSub.lastQuestionId s)
      then {| QuestionSub.isSubscribed := QuestionSub.isSubscribed s;
              QuestionSub.lastQuestionId := currentId;
              QuestionSub.intervalId := QuestionSub.intervalId s;
              QuestionSub.inFlight := QuestionSub.inFlight s;
              QuestionSub.callback := QuestionSub.callback s ++ [currentId] |}
      else s
  | Failed => s
  end.

Definition questionStep (s : QuestionSub.t) (e : PollEvent (option string))
    : QuestionSub.t :=
  match e with
  | Tick =>
      if QuestionSub.intervalId s && QuestionSub.isSubscribed s
      then {| QuestionSub.isSubscribed := QuestionSub.isSubscribed s;
              QuestionSub.lastQuestionId := QuestionSub.lastQuestionId s;
              QuestionSub.intervalId := QuestionSub.intervalId s;
              QuestionSub.inFlight := S (QuestionSub.inFlight s);
              QuestionSub.callback := QuestionSub.callback s |}
      else s
  | Settle r =>
      match QuestionSub.inFlight s with
      | O => s
      | S n =>
          fetchCurrentQuestion r
            {| QuestionSub.isSubscribed := QuestionSub.isSubscribed s;
               QuestionSub.lastQuestionId := QuestionSub.lastQuestionId s;
               QuestionSub.intervalId := QuestionSub.intervalId s;
               QuestionSub.inFlight := n;
               QuestionSub.callback := QuestionSub.callback s |}
      end
  | Unsubscribe =>
      {| QuestionSub.isSubscribed := false;
         QuestionSub.lastQuestionId := QuestionSub.lastQuestionId s;
         QuestionSub.intervalId := false;
         QuestionSub.inFlight := QuestionSub.inFlight s;
         QuestionSub.callback := QuestionSub.callback s |}
  end.

Definition questionRun (es : list (PollEvent (option string))) (s : QuestionSub.t)
    : QuestionSub.t :=
  fold_left questionStep es s.

Module ClearedSub.
(** The closure of [subscribeToVoteCleared], with the number of
    [clear-notification] requests it has sent. *)
Record t := mk {
  isSubscribed : bool;
  lastClearedId : option string;
  intervalId : bool;
  inFlight : nat;
  callback : list string;
  acknowledged : nat
}.
End ClearedSub.

Definition subscribeToVoteCleared : ClearedSub.t :=
  {| ClearedSub.isSubscribed := true;
     ClearedSub.lastClearedId := None;
     ClearedSub.intervalId := true;
     ClearedSub.inFlight := 1;
     ClearedSub.callback := [];
     ClearedSub.acknowledged := 0 |}.

(** The rest of [fetchCleared] once its fetch has settled; the payload is
    the [clearedQuestionId] field of the answer. *)
Definition fetchCleared (r : Fetched (option string)) (s : ClearedSub.t) : ClearedSub.t :=
  match r with
  | Ok clearedId =>
      if ClearedSub.isSubscribed s && negb (jsFalsy clearedId)
         && bool_decide (clearedId ≠ ClearedSub.lastClearedId s)
      then {| ClearedSub.isSubscribed := ClearedSub.isSubscribed s;
              ClearedSub.lastClearedId := clearedId;
              ClearedSub.intervalId := ClearedSub.intervalId s;
              ClearedSub.inFlight := ClearedSub.inFlight s;
              ClearedSub.callback := ClearedSub.callback s ++ [str clearedId];
              ClearedSub.acknowledged := S (ClearedSub.acknowledged s) |}
      else s
  | Failed => s
  end.

Definition clearedStep (s : ClearedSub.t) (e : PollEvent (option string)) : ClearedSub.t :=
  match e with
  | Tick =>
      if ClearedSub.intervalId s && ClearedSub.isSubscribed s
      then {| ClearedSub.isSubscribed := ClearedSub.isSubscribed s;
              ClearedSub.lastClearedId := ClearedSub.lastClearedId s;
              ClearedSub.intervalId := ClearedSub.intervalId s;
              ClearedSub.inFlight := S (ClearedSub.inFlight s);
              ClearedSub.callback := ClearedSub.callback s;
              ClearedSub.acknowledged := ClearedSub.acknowledged s |}
      else s
  | Settle r =>
      match ClearedSub.inFlight s with
      | O => s
      | S n =>
          fetchCleared r
            {| ClearedSub.isSubscribed := ClearedSub.isSubscribed s;
               ClearedSub.lastClearedId := ClearedSub.lastClearedId s;
               ClearedSub.intervalId := ClearedSub.intervalId s;
               ClearedSub.inFlight := n;
               ClearedSub.callback := ClearedSub.callback s;
               ClearedSub.acknowledged := ClearedSub.acknowledged s |}
      end
  | Unsubscribe =>
      {| ClearedSub.isSubscribed := false;
         ClearedSub.lastClearedId := ClearedSub.lastClearedId s;
         ClearedSub.intervalId := false;
         ClearedSub.inFlight := ClearedSub.inFlight s;
         ClearedSub.callback := ClearedSub.callback s;
         ClearedSub.acknowledged := ClearedSub.acknowledged s |}
  end.

Definition clearedRun (es : list (PollEvent (option string))) (s : ClearedSub.t)
    : ClearedSub.t :=
  fold_left clearedStep es s.

(** The question id delivered last; before the first delivery the closure
    holds [null]. *)
Definition lastDelivered (calls : list (option string)) : option string :=
  default None (last calls).

(** No two calls in a row carry the same value. *)
Fixpoint noRepeat {A} `{EqDecision A} (calls : list A) : bool :=
  match calls with
  | x :: (y :: _) as rest => negb (bool_decide (x = y)) && noRepeat rest
  | _ => true
  end.

(** The values of a sequence that differ from the one before them, the
    first one compared with [last]. *)
Fixpoint changes (last : option string) (values : list (option string))
    : list (option string) :=
  match values with
  | [] => []
  | v :: values' =>
      if bool_decide (v ≠ last) then v :: changes v values' else changes last values'
  end.

(** A subscription whose fetches all succeed and settle before the next
    tick, the server holding [values] one after the other. *)
Definition polled (values : list (option string)) : list (PollEvent (option string)) :=
  flat_map (λ v, [Tick; Settle (Ok v)]) values.

(** What holds of the closure of [subscribeToCurrentQuestion] at any time. *)
Definition questionInv (s : QuestionSub.t) : Prop :=
  noRepeat (QuestionSub.callback s) = true
  ∧ QuestionSub.lastQuestionId s = lastDelivered (QuestionSub.callback s).

(* ===================================================================== *)
(** * Backend, the reading handlers ([server/server.cjs]) *)
(* ===================================================================== *)

(** [app.get('/api/events/:eventId', ...)]: the stored event ([inr]); for
    a truthy inherited value, 200 with what [res.json] makes of it; 404. *)
Definition getEvent (eventId : string) (fs : Files) : Response + Event.t :=
  match jsLookup (events (readEventsData fs)) eventId (BUILTINS fs) with
  | inl event => inr event
  | inr found =>
      if truthy found
      then inl {| status := 200; json := InheritedJson |}
      else inl {| status := 404; json := ErrorJson "Event not found" |}
  end.

(** [app.get('/api/events/:eventId/cleared', ...)]: 404, or the
    [clearedQuestionId] of what the lookup finds (a missing one reads as
    null). *)
Definition getCleared (eventId : string) (fs : Files) : Response + option string :=
  match jsLookup (events (readEventsData fs)) eventId (BUILTINS fs) with
  | inl event => inr (Event.clearedQuestionId event)
  | inr found =>
      if truthy found
      then inr (clearedOf found (BUILTINS fs))
      else inl {| status := 404; json := ErrorJson "Event not found" |}
  end.

(** [app.get('/api/devices/:deviceId/votes', ...)] *)
Definition getDeviceVotes (deviceId : string) (fs : Files) : list Vote.t :=
  filter (λ v, Vote.deviceId v = deviceId) (votes (readVotesData fs)).

(* ===================================================================== *)
(** * Client service, the one-shot calls ([src/services/database.ts]) *)
(* ===================================================================== *)

(** An awaited promise: resolved, or rejected with the message of the
    [Error] thrown. *)
Inductive Promise (A : Type) : Type :=
  | Resolved (a : A)
  | Rejected (message : string).
Arguments Resolved {A} a.
Arguments Rejected {A} message.

(** [response.ok]: a status from 200 to 299. *)
Definition responseOk (r : Response) : bool :=
  (200 <=? status r)%nat && (status r <=? 299)%nat.

(** [error.error || fallback] on the parsed body of an answer. *)
Definition errorOr (fallback : string) (body : Json) : string :=
  match body with
  | ErrorJson error => if falsy error then fallback else error
  | _ => fallback
  end.

(** [submitVote], the request reaching the backend: the three ids travel in
    the JSON body, the [timestamp] of the argument is not sent. *)
Definition submitVote (env : Env) (vote : Vote.t) (fs : Files) : Promise unit * Files :=
  let response :=
    postVotes env
      {| body_questionId := Some (Vote.questionId vote);
         body_optionId := Some (Vote.optionId vote);
         body_deviceId := Some (Vote.deviceId vote) |} fs in
  if negb (responseOk response.1)
  then (Rejected (errorOr "Failed to submit vote" (json response.1)), response.2)
  else (Resolved tt, response.2).

Module UserVoteRecord.
Record t := mk {
  questionId : string;
  optionId : string
}.
End UserVoteRecord.

(** The rows of an answer as [getUserVotes] returns them. *)
Definition toUserVoteRecords (data : list Vote.t) : list UserVoteRecord.t :=
  (λ row, {| UserVoteRecord.questionId := Vote.questionId row;
             UserVoteRecord.optionId := Vote.optionId row |}) <$> data.

(* ===================================================================== *)
(** * Voting page ([src/pages/VotingPage.tsx]) *)
(* ===================================================================== *)

(** [getDeviceId]; [localStorage] is used without [try], so its exception
    escapes.  The suffix is [Math.random().toString(36).substring(2, 11)]. *)
Definition getDeviceId (env : Env) (ls : Storage) : result (string * Storage) :=
  let key := "device_id" in
  match getItem key ls with
  | Throw => Throw
  | Return deviceId =>
      if jsFalsy deviceId then
        let deviceId := "device_" ++ dateNow env ++ "_" ++ randomSuffix env in
        match setItem key deviceId ls with
        | Throw => Throw
        | Return ls' => Return (deviceId, ls')
        end
      else Return (str deviceId, ls)
  end.

(** The [votesMap] of [loadData]: [voteRecords.forEach(record =>
    votesMap.set(record.questionId, record.optionId))]. *)
Definition votesMap (voteRecords : list UserVoteRecord.t) : JsMap string :=
  fold_left
    (λ m record,
       map_set (UserVoteRecord.questionId record) (UserVoteRecord.optionId record) m)
    voteRecords [].

(* ===================================================================== *)
(** * Display screen ([src/pages/DisplayScreen.tsx]) *)
(* ===================================================================== *)

(** One round of the loop of [areStatsEqual]: does it return [false] at
    index [i]?  Reading past the end of [b] would throw; the length test
    before the loop excludes it. *)
Definition optionDiffers (a b : list OptionStat.t) (i : nat) : bool :=
  match a !! i, b !! i with
  | Some x, Some y =>
      negb (bool_decide (OptionStat.optionId x = OptionStat.optionId y))
      || negb (bool_decide (OptionStat.count x = OptionStat.count y))
  | _, _ => true
  end.

Definition areStatsEqual (a b : VoteStats.t) : bool :=
  if negb (bool_decide (VoteStats.totalVotes a = VoteStats.totalVotes b)) then false
  else if negb (bool_decide (length (VoteStats.options a) = length (VoteStats.options b)))
  then false
  else forallb (λ i, negb (optionDiffers (VoteStats.options a) (VoteStats.options b) i))
         (seq 0 (length (VoteStats.options a))).

Definition DEFAULT_COLORS : list string :=
  ["#FF6B6B"; "#4ECDC4"; "#FFE66D"; "#95E1D3"; "#F38181"; "#AA96DA"].

(** [customColor || DEFAULT_COLORS[index % DEFAULT_COLORS.length]]; [None]
    would be [undefined]. *)
Definition getOptionColor (index : nat) (customColor : option string) : option string :=
  if jsFalsy customColor
  then DEFAULT_COLORS !! (index mod length DEFAULT_COLORS)
  else customColor.

Module DisplayScreenState.
Record t := mk {
  questions : list Question.t;
  currentCarouselIndex : nat;
  voteStats : VoteStats.t;
  isConnected : bool;
  isLoading : bool
}.
End DisplayScreenState.

(** [{ totalVotes: 0, options: [] }] *)
Definition noStats : VoteStats.t :=
  {| VoteStats.totalVotes := 0; VoteStats.options := [] |}.

(** The component with the two references the carousel resets. *)
Record Display := mkDisplay {
  state : DisplayScreenState.t;
  prevStatsRef : VoteStats.t;
  targetStatsRef : VoteStats.t
}.

(** [questions[currentCarouselIndex] || null] *)
Definition currentQuestion (d : Display) : option Question.t :=
  DisplayScreenState.questions (state d)
  !! DisplayScreenState.currentCarouselIndex (state d).

(** The handler of the carousel timer.  The timer is set only while there
    is more than one question, so the modulus is never taken by 0. *)
Definition carouselTick (d : Display) : Display :=
  let prev := state d in
  let nextIndex :=
    (DisplayScreenState.currentCarouselIndex prev + 1)
    mod length (DisplayScreenState.questions prev) in
  {| state :=
       {| DisplayScreenState.questions := DisplayScreenState.questions prev;
          DisplayScreenState.currentCarouselIndex := nextIndex;
          DisplayScreenState.voteStats := noStats;
          DisplayScreenState.isConnected := DisplayScreenState.isConnected prev;
          DisplayScreenState.isLoading := DisplayScreenState.isLoading prev |};
     prevStatsRef := noStats;
     targetStatsRef := noStats |}.

(** [handleIndicatorClick(index)], the timer apart. *)
Definition handleIndicatorClick (index : nat) (d : Display) : Display :=
  let prev := state d in
  {| state :=
       {| DisplayScreenState.questions := DisplayScreenState.questions prev;
          DisplayScreenState.currentCarouselIndex := index;
          DisplayScreenState.voteStats := noStats;
          DisplayScreenState.isConnected := DisplayScreenState.isConnected prev;
          DisplayScreenState.isLoading := DisplayScreenState.isLoading prev |};
     prevStatsRef := noStats;
     targetStatsRef := noStats |}.

(* ===================================================================== *)
(** * Notions used in the statements *)
(* ===================================================================== *)

(** The keys of a [Map], in iteration order. *)
Definition keys {V} (m : JsMap V) : list string := fst <$> m.

(** [!questionId || !optionId || !deviceId] on a request body. *)
Definition missingField (body : VoteBody) : bool :=
  jsFalsy (body_questionId body) || jsFalsy (body_optionId body)
  || jsFalsy (body_deviceId body).

(** The distinct values of a list, each at its first occurrence. *)
Fixpoint firstSeen (ids : list string) : list string :=
  match ids with
  | [] => []
  | x :: ids' => x :: filter (λ y, y ≠ x) (firstSeen ids')
  end.

(** What [areStatsEqual] looks at in an entry. *)
Definition statKey (s : OptionStat.t) : string * nat :=
  (OptionStat.optionId s, OptionStat.count s).



(** A subscription each of whose fetches settles, well or badly, before
    the next tick; and the payloads of the fetches that went well. *)
Definition polledResults {A} (results : list (Fetched A)) : list (PollEvent A) :=
  flat_map (λ r, [Tick; Settle r]) results.

Definition succeeded {A} (results : list (Fetched A)) : list A :=
  omap (λ r, match r with Ok payload => Some payload | Failed => None end) results.

(* ===================================================================== *)
(** * Sample data *)
(* ===================================================================== *)

Definition vote_for (optionId : string) : Vote.t :=
  {| Vote.id := "v"; Vote.questionId := "q1"; Vote.optionId := optionId;
     Vote.deviceId := "d"; Vote.timestamp := "2024-01-01T00:00:00.000Z" |}.

Definition option_named (id label : string) : Option.t :=
  {| Option.id := id; Option.label := label; Option.color := None |}.

Definition env_at (ms suffix iso : string) : Env :=
  {| dateNow := ms; randomSuffix := suffix; isoString := iso |}.

Definition no_files : Files :=
  {| EVENTS_FILE := None; VOTES_FILE := None; BUILTINS := ∅ |}.

Definition demo_event : Event.t :=
  {| Event.id := "demo"; Event.name := "Demo";
     Event.currentQuestionId := Some "q1"; Event.clearedQuestionId := None |}.

Definition demo_question : Question.t :=
  {| Question.id := "q1"; Question.eventId := "demo"; Question.title := "Title";
     Question.options := [option_named "opt1" "A"; option_named "opt2" "B"];
     Question.order := 1 |}.

Definition demo_files : Files :=
  {| EVENTS_FILE := Some {| events := {[ "demo" := demo_event ]};
                            questions := {[ "q1" := demo_question ]} |};
     VOTES_FILE := Some {| votes := [ Vote.mk "v1" "q1" "opt1" "d1" "t1";
                                       Vote.mk "v2" "q2" "opt1" "d1" "t2";
                                       Vote.mk "v3" "q1" "opt2" "d2" "t3" ] |};
     BUILTINS := ∅ |}.

Definition demo_display : Display :=
  {| state :=
       {| DisplayScreenState.questions := [demo_question; demo_question; demo_question];
          DisplayScreenState.currentCarouselIndex := 2;
          DisplayScreenState.voteStats := noStats;
          DisplayScreenState.isConnected := true;
          DisplayScreenState.isLoading := false |};
     prevStatsRef := noStats;
     targetStatsRef := noStats |}.

(* ===================================================================== *)
(** * Properties of the stats calculator *)
(* ===================================================================== *)

Section JsMapFacts.
Context {V : Type}.
Implicit Types (m : JsMap V) (k : string) (v : V).

Lemma map_get_set_eq k v m : map_get k (map_set k v m) = Some v.
Proof.
  induction m as [|[k' v'] m IH]; simpl.
  - by rewrite bool_decide_true.
  - case_bool_decide; simpl.
    + by rewrite bool_decide_true.
    + by rewrite bool_decide_false.
Qed.

Lemma map_get_set_ne k k' v m :
  k ≠ k' → map_get k' (map_set k v m) = map_get k' m.
Proof.
  intros Hne. induction m as [|[k0 v0] m IH]; simpl.
  - by rewrite bool_decide_false.
  - destruct (bool_decide_reflect (k0 = k)) as [->|Hk]; simpl.
    + by rewrite !bool_decide_false.
    + by rewrite IH.
Qed.
End JsMapFacts.

Lemma sumValues_set k c (m : JsMap nat) :
  sumValues (map_set k c m) + default 0 (map_get k m) = sumValues m + c.
Proof.
  unfold sumValues. induction m as [|[k' c'] m IH]; csimpl; [lia|].
  case_bool_decide; csimpl; lia.
Qed.

Lemma sumValues_count k (m : JsMap nat) :
  sumValues (map_set k (default 0 (map_get k m) + 1) m) = sumValues m + 1.
Proof. pose proof (sumValues_set k (default 0 (map_get k m) + 1) m). lia. Qed.

Lemma votesFor_cons k v vs :
  votesFor k (v :: vs) =
  (if bool_decide (Vote.optionId v = k) then 1 else 0) + votesFor k vs.
Proof.
  unfold votesFor. rewrite filter_cons.
  case_decide; [rewrite bool_decide_true|rewrite bool_decide_false]; done.
Qed.

Lemma votesFor_none k vs :
  (∀ v, v ∈ vs → Vote.optionId v ≠ k) → votesFor k vs = 0.
Proof.
  induction vs as [|v vs IH]; intros Hnone; [done|].
  rewrite votesFor_cons, bool_decide_false by (apply Hnone; by left).
  apply IH. intros v' Hv'. apply Hnone. by right.
Qed.

Lemma countVotes_from k vs (m : JsMap nat) :
  default 0 (map_get k (fold_left countVote vs m)) =
  default 0 (map_get k m) + votesFor k vs.
Proof.
  revert m. induction vs as [|v vs IH]; intros m; simpl.
  - unfold votesFor. simpl. lia.
  - rewrite IH, votesFor_cons. unfold countVote.
    case_bool_decide as Hk.
    + rewrite Hk, map_get_set_eq. simpl. lia.
    + rewrite map_get_set_ne by done. lia.
Qed.

Lemma countVotes_get k vs :
  default 0 (map_get k (countVotes vs)) = votesFor k vs.
Proof. unfold countVotes. by rewrite countVotes_from. Qed.

Lemma countVotes_sum vs : sumValues (countVotes vs) = length vs.
Proof.
  unfold countVotes.
  enough (∀ m, sumValues (fold_left countVote vs m) = sumValues m + length vs)
    as H by (rewrite H; done).
  induction vs as [|v vs IH]; intros m; simpl; [lia|].
  rewrite IH. unfold countVote. cbv zeta. rewrite sumValues_count. lia.
Qed.

Lemma pushOption_fold cm total os acc :
  fold_left (pushOption cm total) os acc =
  (acc ++ ((λ o, {| OptionStat.optionId := Option.id o;
                    OptionStat.label := Option.label o;
                    OptionStat.count := default 0 (map_get (Option.id o) cm);
                    OptionStat.percentage :=
                      percentageOf (default 0 (map_get (Option.id o) cm)) total |}) <$> os))%list.
Proof.
  revert acc. induction os as [|o os IH]; intros acc; simpl.
  - by rewrite app_nil_r.
  - rewrite IH. unfold pushOption. by rewrite <- app_assoc.
Qed.

Lemma pushEntry_fold total (cm : JsMap nat) acc :
  fold_left (pushEntry total) cm acc =
  (acc ++ ((λ e, {| OptionStat.optionId := e.1;
                    OptionStat.label := e.1;
                    OptionStat.count := e.2;
                    OptionStat.percentage := percentageOf e.2 total |}) <$> cm))%list.
Proof.
  revert acc. induction cm as [|[k c] cm IH]; intros acc; simpl.
  - by rewrite app_nil_r.
  - rewrite IH. by rewrite <- app_assoc.
Qed.

Lemma sumCounts_sum_list stats :
  sumCounts stats = sum_list (OptionStat.count <$> VoteStats.options stats).
Proof.
  unfold sumCounts.
  enough (∀ l a, fold_left (λ sum opt, sum + OptionStat.count opt) l a
                 = a + sum_list (OptionStat.count <$> l)) as H by (rewrite H; done).
  induction l as [|x l IH]; intros a; csimpl; [lia|]. rewrite IH. lia.
Qed.

(** With options supplied the result is the list of per-option entries. *)
Lemma calculateStats_options vs os :
  os ≠ [] →
  calculateStats vs os =
  {| VoteStats.totalVotes := length vs;
     VoteStats.options := statOfOption vs <$> os |}.
Proof.
  intros Hos. unfold calculateStats.
  destruct os as [|o os]; [done|]. cbn [length Nat.ltb Nat.leb].
  rewrite pushOption_fold. cbn [app]. f_equal.
  apply list_fmap_ext. intros _ o' _. unfold statOfOption.
  by rewrite !countVotes_get.
Qed.

(** Without options the result lists the entries of the count map. *)
Lemma calculateStats_no_options vs :
  calculateStats vs [] =
  {| VoteStats.totalVotes := length vs;
     VoteStats.options :=
       (λ e, {| OptionStat.optionId := e.1;
                OptionStat.label := e.1;
                OptionStat.count := e.2;
                OptionStat.percentage := percentageOf e.2 (length vs) |})
       <$> countVotes vs |}.
Proof. unfold calculateStats. cbn [length Nat.ltb Nat.leb]. by rewrite pushEntry_fold. Qed.

Lemma sum_list_fmap_plus {A} (f g : A → nat) (l : list A) :
  sum_list ((λ x, f x + g x) <$> l) = sum_list (f <$> l) + sum_list (g <$> l).
Proof. induction l as [|x l IH]; csimpl; lia. Qed.

Lemma sum_named_absent (x : string) (ks : list string) :
  x ∉ ks → sum_list ((λ k, if bool_decide (x = k) then 1 else 0) <$> ks) = 0.
Proof.
  induction ks as [|k ks IH]; csimpl; [done|].
  intros [Hk Hks]%not_elem_of_cons.
  rewrite bool_decide_false by done. rewrite IH by done. done.
Qed.

Lemma sum_named_once (x : string) (ks : list string) :
  NoDup ks → x ∈ ks →
  sum_list ((λ k, if bool_decide (x = k) then 1 else 0) <$> ks) = 1.
Proof.
  induction 1 as [|k ks Hk Hnd IH]; intros Hin.
  - by apply elem_of_nil in Hin.
  - csimpl. apply elem_of_cons in Hin as [->|Hin].
    + rewrite bool_decide_true by done. by rewrite sum_named_absent.
    + rewrite bool_decide_false by (intros ->; done). by rewrite IH.
Qed.

(** Every vote is counted once when the option ids are pairwise distinct
    and cover the votes. *)
Lemma sum_votesFor (ks : list string) (vs : list Vote.t) :
  NoDup ks →
  (∀ v, v ∈ vs → Vote.optionId v ∈ ks) →
  sum_list ((λ k, votesFor k vs) <$> ks) = length vs.
Proof.
  intros Hnd. induction vs as [|v vs IH]; intros Hcov.
  - clear Hnd Hcov. induction ks as [|k ks IHk]; csimpl; [done|].
    by rewrite IHk.
  - erewrite list_fmap_ext; last (intros _ k _; apply votesFor_cons).
    rewrite sum_list_fmap_plus, IH.
    + rewrite sum_named_once; [done..|]. apply Hcov. by left.
    + intros v' Hv'. apply Hcov. by right.
Qed.

(** C1 (as amended): [totalVotes] is the number of votes for every vote list
    and option list.  The counts of the returned entries add up to the number
    of votes when the option list is omitted or empty, and when it is
    supplied with pairwise distinct ids and every vote names one of them. *)
Theorem calculateStats_totals (vs : list Vote.t) (os : list Option.t) :
  VoteStats.totalVotes (calculateStats vs os) = length vs
  ∧ (os = [] → sumCounts (calculateStats vs os) = length vs)
  ∧ (NoDup (Option.id <$> os) →
     (∀ v, v ∈ vs → Vote.optionId v ∈ Option.id <$> os) →
     sumCounts (calculateStats vs os) = length vs).
Proof.
  split; [done|]. split.
  - intros ->. rewrite sumCounts_sum_list, calculateStats_no_options.
    cbn [VoteStats.options]. rewrite <- list_fmap_compose.
    transitivity (sumValues (countVotes vs)); [done|apply countVotes_sum].
  - intros Hnd Hcov. destruct (decide (os = [])) as [->|Hos].
    + destruct vs as [|v vs]; [done|].
      specialize (Hcov v ltac:(by left)). by apply elem_of_nil in Hcov.
    + rewrite sumCounts_sum_list, calculateStats_options by done.
      cbn [VoteStats.options]. rewrite <- list_fmap_compose.
      rewrite <- (sum_votesFor (Option.id <$> os) vs) by done.
      by rewrite <- list_fmap_compose.
Qed.

(** C1, instance: three votes over two listed options, and the same votes
    with the option list omitted. *)
Lemma calculateStats_totals_witness :
  VoteStats.totalVotes
    (calculateStats [vote_for "opt1"; vote_for "opt1"; vote_for "opt2"]
                    [option_named "opt1" "A"; option_named "opt2" "B"]) = 3
  ∧ sumCounts
      (calculateStats [vote_for "opt1"; vote_for "opt1"; vote_for "opt2"]
                      [option_named "opt1" "A"; option_named "opt2" "B"]) = 3
  ∧ sumCounts
      (calculateStats [vote_for "opt1"; vote_for "opt1"; vote_for "opt2"] []) = 3.
Proof.
  pose proof (calculateStats_totals
                [vote_for "opt1"; vote_for "opt1"; vote_for "opt2"]
                [option_named "opt1" "A"; option_named "opt2" "B"]) as (Ht & _ & Hs).
  pose proof (calculateStats_totals
                [vote_for "opt1"; vote_for "opt1"; vote_for "opt2"] []) as (_ & He & _).
  split; [exact Ht|]. split.
  - apply Hs.
    + compute_done.
    + intros v Hv. vm_compute.
      repeat (apply elem_of_cons in Hv as [->|Hv]); [set_solver..|].
      by apply elem_of_nil in Hv.
  - by apply He.
Defined.

(** C1, as stated, fails: a vote naming an option that is not in the
    supplied list is counted in [totalVotes] and in no entry. *)
Lemma calculateStats_totals_counterexample :
  length [vote_for "optX"] = 1
  ∧ sumCounts (calculateStats [vote_for "optX"] [option_named "optA" "A"]) = 0.
Proof. split; reflexivity. Qed.

(** C6: with a non-empty option list the result has one entry per supplied
    option, in the order of the list; the entry at each position carries the
    id and the label of the option at that position, and its count is the
    number of votes naming that id, so an option no vote names has count 0. *)
Theorem calculateStats_with_options (vs : list Vote.t) (os : list Option.t) :
  os ≠ [] →
  length (VoteStats.options (calculateStats vs os)) = length os
  ∧ ∀ i o, os !! i = Some o →
      ∃ s, VoteStats.options (calculateStats vs os) !! i = Some s
           ∧ OptionStat.optionId s = Option.id o
           ∧ OptionStat.label s = Option.label o
           ∧ OptionStat.count s = votesFor (Option.id o) vs
           ∧ ((∀ v, v ∈ vs → Vote.optionId v ≠ Option.id o) →
              OptionStat.count s = 0).
Proof.
  intros Hos. rewrite calculateStats_options by done. cbn [VoteStats.options].
  split; [by rewrite length_fmap|].
  intros i o Hi. exists (statOfOption vs o).
  rewrite list_lookup_fmap, Hi. repeat split.
  intros Hnone. cbn [statOfOption OptionStat.count]. by apply votesFor_none.
Qed.

(** C6, instance: the label comes from the option and the unnamed option
    is listed with count 0. *)
Lemma calculateStats_with_options_witness :
  length (VoteStats.options
            (calculateStats [vote_for "opt2"; vote_for "opt2"]
                            [option_named "opt1" "Red"; option_named "opt2" "Blue"])) = 2
  ∧ ∃ s, VoteStats.options
           (calculateStats [vote_for "opt2"; vote_for "opt2"]
                           [option_named "opt1" "Red"; option_named "opt2" "Blue"]) !! 0
         = Some s
         ∧ OptionStat.label s = "Red" ∧ OptionStat.count s = 0.
Proof.
  destruct (calculateStats_with_options
              [vote_for "opt2"; vote_for "opt2"]
              [option_named "opt1" "Red"; option_named "opt2" "Blue"]
              ltac:(discriminate)) as [Hlen Hat].
  split; [exact Hlen|].
  destruct (Hat 0 (option_named "opt1" "Red") eq_refl) as (s & Hs & _ & Hl & _ & H0).
  exists s. split; [exact Hs|]. split; [exact Hl|].
  apply H0. intros v Hv.
  repeat (apply elem_of_cons in Hv as [->|Hv]); [discriminate..|].
  by apply elem_of_nil in Hv.
Defined.

(** The scenarios of the test suite: two of three votes, and no vote. *)
Example calculateStats_scenario :
  calculateStats [vote_for "opt1"; vote_for "opt1"; vote_for "opt2"]
                 [option_named "opt1" "A"; option_named "opt2" "B"]
  = {| VoteStats.totalVotes := 3;
       VoteStats.options :=
         [ OptionStat.mk "opt1" "A" 2 (2 / 3 * 100)%float;
           OptionStat.mk "opt2" "B" 1 (1 / 3 * 100)%float ] |}.
Proof. reflexivity. Qed.

Example calculateStats_scenario_empty :
  calculateStats [] [option_named "opt1" "A"; option_named "opt2" "B"]
  = {| VoteStats.totalVotes := 0;
       VoteStats.options :=
         [ OptionStat.mk "opt1" "A" 0 0%float; OptionStat.mk "opt2" "B" 0 0%float ] |}.
Proof. reflexivity. Qed.

(** Without options the entries follow the first occurrence of each id. *)
Example calculateStats_scenario_first_seen :
  OptionStat.optionId <$>
    VoteStats.options
      (calculateStats [vote_for "b"; vote_for "a"; vote_for "b"; vote_for "c"] [])
  = ["b"; "a"; "c"].
Proof. reflexivity. Qed.

(* ===================================================================== *)
(** * Properties of the vote-status guard *)
(* ===================================================================== *)

Lemma getStorageKey_inj q1 q2 : getStorageKey q1 = getStorageKey q2 → q1 = q2.
Proof. unfold getStorageKey, VOTE_STATUS_PREFIX. simpl. intros H. by simplify_eq. Qed.

Lemma falsy_true q : falsy q = true ↔ q = "".
Proof. unfold falsy. by rewrite bool_decide_eq_true. Qed.

Lemma falsy_false q : falsy q = false ↔ q ≠ "".
Proof. unfold falsy. by rewrite bool_decide_eq_false. Qed.

(** What the three operations do to the dictionary. *)
Lemma markAsVoted_items q ls :
  items (snd (markAsVoted q ls)) =
  if falsy q then items ls
  else if available ls then <[getStorageKey q := "true"]> (items ls)
  else items ls.
Proof. unfold markAsVoted, setItem. by destruct (falsy q), (available ls). Qed.

Lemma clearVoteStatus_items q ls :
  items (clearVoteStatus q ls) =
  if falsy q then items ls
  else if available ls then delete (getStorageKey q) (items ls)
  else items ls.
Proof. unfold clearVoteStatus, removeItem. by destruct (falsy q), (available ls). Qed.

Lemma markAsVoted_available q ls : available (snd (markAsVoted q ls)) = available ls.
Proof.
  unfold markAsVoted, setItem. destruct (falsy q); [done|].
  by destruct (available ls) eqn:Ha.
Qed.

Lemma clearVoteStatus_available q ls : available (clearVoteStatus q ls) = available ls.
Proof.
  unfold clearVoteStatus, removeItem. destruct (falsy q); [done|].
  by destruct (available ls) eqn:Ha.
Qed.

Lemma checkVoteStatus_unset q ls :
  items ls !! getStorageKey q = None → checkVoteStatus q ls = false.
Proof.
  intros Hk. unfold checkVoteStatus, getItem.
  destruct (falsy q), (available ls); try done. by rewrite Hk.
Qed.

(** [checkVoteStatus] reads one key of the dictionary and the flag. *)
Lemma checkVoteStatus_ext q ls ls' :
  available ls' = available ls →
  items ls' !! getStorageKey q = items ls !! getStorageKey q →
  checkVoteStatus q ls' = checkVoteStatus q ls.
Proof.
  intros Ha Hk. unfold checkVoteStatus, getItem. rewrite Ha, Hk. done.
Qed.

Lemma guardRun_unset q calls ls :
  Mark q ∉ calls →
  items ls !! getStorageKey q = None →
  items (guardRun calls ls) !! getStorageKey q = None.
Proof.
  revert ls. induction calls as [|c calls IH]; intros ls Hnot Hk; [done|].
  apply not_elem_of_cons in Hnot as [Hc Hnot]. simpl. apply IH; [done|].
  destruct c as [q'|q'|q']; simpl; [done| |].
  - rewrite markAsVoted_items. destruct (falsy q'), (available ls); try done.
    rewrite lookup_insert_ne; [done|].
    intros Heq%getStorageKey_inj. by subst.
  - rewrite clearVoteStatus_items. destruct (falsy q'), (available ls); try done.
    rewrite lookup_delete. by case_decide.
Qed.

Lemma markAsVoted_twice q ls :
  snd (markAsVoted q (snd (markAsVoted q ls))) = snd (markAsVoted q ls).
Proof.
  unfold markAsVoted, setItem. destruct (falsy q) eqn:Hq; simpl; [done|].
  destruct (available ls) eqn:Ha; simpl; rewrite ?Ha; simpl; [|done].
  by rewrite insert_insert_eq.
Qed.

Lemma markTimes_once n q ls :
  markTimes (S n) q ls = snd (markAsVoted q ls).
Proof.
  revert ls. induction n as [|n IH]; intros ls; [done|].
  change (markTimes (S (S n)) q ls) with (markTimes (S n) q (snd (markAsVoted q ls))).
  by rewrite IH, markAsVoted_twice.
Qed.

(** C5 (as amended): before any [markAsVoted q] on a fresh storage
    [checkVoteStatus q] is false; for a non-empty [q] and an available
    storage [checkVoteStatus q] is true after [markAsVoted q], also after
    any number [N >= 1] of calls, which leave the storage as one call does;
    [clearVoteStatus q] resets [checkVoteStatus q] to false; marking or
    clearing [q] does not change the status of another question. *)
Theorem voteStatus_lifecycle (q : string) (ls : Storage) :
  q ≠ "" →
  available ls = true →
  (∀ calls, Mark q ∉ calls → checkVoteStatus q (guardRun calls emptyStorage) = false)
  ∧ markAsVoted q ls = (true, snd (markAsVoted q ls))
  ∧ checkVoteStatus q (snd (markAsVoted q ls)) = true
  ∧ (∀ n, markTimes (S n) q ls = snd (markAsVoted q ls)
          ∧ checkVoteStatus q (markTimes (S n) q ls) = true)
  ∧ checkVoteStatus q (clearVoteStatus q (snd (markAsVoted q ls))) = false
  ∧ (∀ q', q' ≠ q →
       checkVoteStatus q' (snd (markAsVoted q ls)) = checkVoteStatus q' ls
       ∧ checkVoteStatus q' (clearVoteStatus q ls) = checkVoteStatus q' ls).
Proof.
  intros Hq%falsy_false Ha.
  assert (checkVoteStatus q (snd (markAsVoted q ls)) = true) as Hmarked.
  { unfold checkVoteStatus, getItem. rewrite Hq, markAsVoted_available, Ha.
    rewrite markAsVoted_items, Hq, Ha, lookup_insert_eq. done. }
  split; [|split; [|split; [done|split; [|split]]]].
  - intros calls Hnot. apply checkVoteStatus_unset, guardRun_unset; done.
  - unfold markAsVoted, setItem. by rewrite Hq, Ha.
  - intros n. by rewrite markTimes_once.
  - apply checkVoteStatus_unset.
    rewrite clearVoteStatus_items, Hq, markAsVoted_available, Ha.
    apply lookup_delete_eq.
  - intros q' Hne. split; apply checkVoteStatus_ext.
    + apply markAsVoted_available.
    + rewrite markAsVoted_items, Hq, Ha. apply lookup_insert_ne.
      intros Heq%getStorageKey_inj. by subst.
    + apply clearVoteStatus_available.
    + rewrite clearVoteStatus_items, Hq, Ha. apply lookup_delete_ne.
      intros Heq%getStorageKey_inj. by subst.
Qed.

(** C5, instance: question ["q1"] on a fresh storage, next to ["q2"]. *)
Lemma voteStatus_lifecycle_witness :
  checkVoteStatus "q1" (guardRun [Mark "q2"; Clear "q1"; Check "q1"] emptyStorage) = false
  ∧ checkVoteStatus "q1" (snd (markAsVoted "q1" emptyStorage)) = true
  ∧ checkVoteStatus "q1" (markTimes 3 "q1" emptyStorage) = true
  ∧ checkVoteStatus "q1" (clearVoteStatus "q1" (snd (markAsVoted "q1" emptyStorage))) = false
  ∧ checkVoteStatus "q2" (snd (markAsVoted "q1" emptyStorage)) = false.
Proof.
  destruct (voteStatus_lifecycle "q1" emptyStorage ltac:(discriminate) eq_refl)
    as (Hbefore & _ & Hmark & Htimes & Hclear & Hother).
  split; [|split; [exact Hmark|split; [apply Htimes|split; [exact Hclear|]]]].
  - apply Hbefore. intros Hin.
    repeat (apply elem_of_cons in Hin as [Hin|Hin]; [discriminate|]).
    by apply elem_of_nil in Hin.
  - rewrite (proj1 (Hother "q2" ltac:(discriminate))). reflexivity.
Defined.

(** C5, as stated for all question ids, fails: marking the empty id is
    refused, and marking on an unavailable storage records nothing. *)
Lemma voteStatus_lifecycle_counterexample :
  markAsVoted "" emptyStorage = (false, emptyStorage)
  ∧ checkVoteStatus "" (snd (markAsVoted "" emptyStorage)) = false
  ∧ checkVoteStatus "q1"
      (snd (markAsVoted "q1" {| items := ∅; available := false |})) = false.
Proof. repeat split. Qed.

(* ===================================================================== *)
(** * Properties of the backend *)
(* ===================================================================== *)

Section FindIndex.
Context {A : Type} (p : A → bool).

Lemma findIndexFrom_spec (l : list A) (i : Z) :
  (0 ≤ i)%Z →
  (findIndexFrom p l i = (-1)%Z ∨ (i ≤ findIndexFrom p l i)%Z)
  ∧ (findIndexFrom p l i = (-1)%Z → Forall (λ x, p x = false) l)
  ∧ ((i ≤ findIndexFrom p l i)%Z →
     ∃ x, l !! Z.to_nat (findIndexFrom p l i - i) = Some x ∧ p x = true
          ∧ Forall (λ y, p y = false) (take (Z.to_nat (findIndexFrom p l i - i)) l)).
Proof.
  revert i. induction l as [|x l IH]; intros i Hi; simpl.
  - split; [by left|]. split; [by constructor|]. lia.
  - destruct (p x) eqn:Hx.
    + split; [right; lia|]. split; [lia|]. intros _.
      replace (i - i)%Z with 0%Z by lia. exists x. simpl. by repeat split.
    + destruct (IH (i + 1)%Z ltac:(lia)) as (Hrange & Hnone & Hfound).
      split; [destruct Hrange; [by left|right; lia]|]. split.
      * intros Heq. constructor; [done|]. by apply Hnone.
      * intros Hle. destruct Hrange as [Heq|Hle']; [lia|].
        destruct (Hfound Hle') as (y & Hy & Hpy & Hbefore).
        replace (Z.to_nat (findIndexFrom p l (i + 1) - i))
          with (S (Z.to_nat (findIndexFrom p l (i + 1) - (i + 1)))) by lia.
        exists y. simpl. repeat split; [done..|]. by constructor.
Qed.

Lemma findIndex_none (l : list A) :
  findIndex p l = (-1)%Z → Forall (λ x, p x = false) l.
Proof. intros H. by apply (findIndexFrom_spec l 0 ltac:(lia)). Qed.

Lemma findIndex_found (l : list A) :
  findIndex p l ≠ (-1)%Z →
  ∃ x, l !! Z.to_nat (findIndex p l) = Some x ∧ p x = true
       ∧ Forall (λ y, p y = false) (take (Z.to_nat (findIndex p l)) l).
Proof.
  intros H. unfold findIndex in *.
  destruct (findIndexFrom_spec l 0 ltac:(lia)) as ([Heq|Hle] & _ & Hfound); [done|].
  destruct (Hfound Hle) as (x & Hx). exists x.
  by replace (findIndexFrom p l 0 - 0)%Z with (findIndexFrom p l 0) in Hx by lia.
Qed.

Lemma findIndex_present (l : list A) i x :
  l !! i = Some x → p x = true → findIndex p l ≠ (-1)%Z.
Proof.
  intros Hi Hx Hnone%findIndex_none.
  rewrite Forall_forall in Hnone.
  rewrite (Hnone x) in Hx; [done|]. by eapply list_elem_of_lookup_2.
Qed.
End FindIndex.

Lemma sameVoter_true q d v :
  sameVoter q d v = true ↔ voterKey v = (q, d).
Proof.
  unfold sameVoter, voterKey. rewrite andb_true_iff, !bool_decide_eq_true.
  split; [by intros [-> ->]|by intros [= -> ->]].
Qed.

Lemma voterKey_revote o ts v : voterKey (revote o ts v) = voterKey v.
Proof. done. Qed.

(** Under the invariant the record found first is the only one. *)
Lemma findIndex_sameVoter (l : list Vote.t) i existing :
  NoDup (voterKey <$> l) →
  l !! i = Some existing →
  findIndex (sameVoter (Vote.questionId existing) (Vote.deviceId existing)) l = Z.of_nat i.
Proof.
  intros Hnd Hi.
  assert (sameVoter (Vote.questionId existing) (Vote.deviceId existing) existing = true)
    as Hsame by by apply sameVoter_true.
  destruct (findIndex_found _ l (findIndex_present _ l i existing Hi Hsame))
    as (x & Hx & Hpx & _).
  apply sameVoter_true in Hpx.
  assert (Z.to_nat (findIndex (sameVoter (Vote.questionId existing)
                                         (Vote.deviceId existing)) l) = i) as Heq.
  { eapply (NoDup_lookup (voterKey <$> l)); [done| |].
    - rewrite list_lookup_fmap, Hx. simpl. by rewrite Hpx.
    - rewrite list_lookup_fmap, Hi. done. }
  destruct (findIndexFrom_spec (sameVoter (Vote.questionId existing)
                                          (Vote.deviceId existing)) l 0 ltac:(lia))
    as ([Hneg|Hpos] & _ & _); unfold findIndex in *; [|lia].
  exfalso. by eapply (findIndex_present _ l i existing).
Qed.

Lemma jsFalsy_Some s : s ≠ "" → jsFalsy (Some s) = false.
Proof. intros H. by apply falsy_false. Qed.

(** The three outcomes of [POST /api/votes]. *)
Lemma postVotes_missing env body fs :
  jsFalsy (body_questionId body) || jsFalsy (body_optionId body)
  || jsFalsy (body_deviceId body) = true →
  postVotes env body fs =
  ({| status := 400; json := ErrorJson "Missing required fields" |}, fs).
Proof. intros H. unfold postVotes. by rewrite H. Qed.

Lemma postVotes_update env q o d fs i existing :
  q ≠ "" → o ≠ "" → d ≠ "" →
  oneVotePerVoter fs →
  votes (readVotesData fs) !! i = Some existing →
  Vote.questionId existing = q →
  Vote.deviceId existing = d →
  postVotes env (mkVoteBody (Some q) (Some o) (Some d)) fs =
  ({| status := 200; json := VoteJson (revote o (isoString env) existing) true |},
   writeVotesData
     {| votes := <[i := revote o (isoString env) existing]> (votes (readVotesData fs)) |}
     fs).
Proof.
  intros Hq Ho Hd Hinv Hi <- <-. unfold postVotes.
  cbn [body_questionId body_optionId body_deviceId str default from_option id].
  rewrite !jsFalsy_Some by done. cbn [orb]. cbv zeta.
  rewrite (findIndex_sameVoter _ i existing Hinv Hi).
  rewrite bool_decide_true by lia. rewrite Nat2Z.id, Hi. done.
Qed.

Lemma postVotes_create env q o d fs :
  q ≠ "" → o ≠ "" → d ≠ "" →
  Forall (λ v, voterKey v ≠ (q, d)) (votes (readVotesData fs)) →
  postVotes env (mkVoteBody (Some q) (Some o) (Some d)) fs =
  let vote := {| Vote.id := "vote_" ++ dateNow env ++ "_" ++ randomSuffix env;
                 Vote.questionId := q; Vote.optionId := o; Vote.deviceId := d;
                 Vote.timestamp := isoString env |} in
  ({| status := 201; json := VoteJson vote false |},
   writeVotesData {| votes := (votes (readVotesData fs) ++ [vote])%list |} fs).
Proof.
  intros Hq Ho Hd Hnew. unfold postVotes.
  cbn [body_questionId body_optionId body_deviceId str default from_option id].
  rewrite !jsFalsy_Some by done. cbn [orb]. cbv zeta.
  destruct (decide (findIndex (sameVoter q d) (votes (readVotesData fs)) = (-1)%Z))
    as [Heq|Hne].
  - rewrite Heq. by rewrite bool_decide_false by lia.
  - destruct (findIndex_found _ _ Hne) as (x & Hx & Hpx%sameVoter_true & _).
    rewrite Forall_forall in Hnew. exfalso. eapply Hnew; [|done].
    by eapply list_elem_of_lookup_2.
Qed.

Lemma jsFalsy_false field : jsFalsy field = false → ∃ s, field = Some s ∧ s ≠ "".
Proof.
  destruct field as [s|]; [|done]. intros H%falsy_false. by exists s.
Qed.

Lemma postVotes_invariant env body fs :
  oneVotePerVoter fs → oneVotePerVoter (snd (postVotes env body fs)).
Proof.
  intros Hinv.
  destruct (jsFalsy (body_questionId body) || jsFalsy (body_optionId body)
            || jsFalsy (body_deviceId body)) eqn:Hmiss.
  { by rewrite postVotes_missing. }
  apply orb_false_iff in Hmiss as [[Hq Ho]%orb_false_iff Hd].
  destruct body as [fq fo fd]; simpl in *.
  apply jsFalsy_false in Hq as (q & -> & Hq).
  apply jsFalsy_false in Ho as (o & -> & Ho).
  apply jsFalsy_false in Hd as (d & -> & Hd).
  destruct (decide (findIndex (sameVoter q d) (votes (readVotesData fs)) = (-1)%Z))
    as [Hnone|Hfound].
  - apply findIndex_none in Hnone.
    assert (Forall (λ v, voterKey v ≠ (q, d)) (votes (readVotesData fs))) as Hnew.
    { eapply Forall_impl; [exact Hnone|]. intros v Hv Hk%sameVoter_true. congruence. }
    rewrite postVotes_create by done. unfold oneVotePerVoter in *. simpl.
    rewrite fmap_app. apply NoDup_app. split; [done|]. split; [|apply NoDup_singleton].
    intros k Hk ->%list_elem_of_singleton.
    apply list_elem_of_fmap in Hk as (v & Hv & Hin).
    rewrite Forall_forall in Hnew. by apply (Hnew v).
  - destruct (findIndex_found _ _ Hfound) as (x & Hx & Hpx%sameVoter_true & _).
    injection Hpx as Hxq Hxd.
    rewrite (postVotes_update env q o d fs _ x) by done.
    unfold oneVotePerVoter in *. simpl.
    rewrite list_fmap_insert, voterKey_revote.
    rewrite list_insert_id; [done|]. by rewrite list_lookup_fmap, Hx.
Qed.

Lemma postVotesAll_invariant requests fs :
  oneVotePerVoter fs → oneVotePerVoter (postVotesAll requests fs).
Proof.
  revert fs. induction requests as [|[env body] requests IH]; intros fs Hinv; [done|].
  simpl. apply IH. by apply postVotes_invariant.
Qed.

(** C2: starting from a store with at most one vote per (questionId,
    deviceId) pair, every sequence of [POST /votes] requests leaves a store
    with at most one vote per pair.  In the store so reached, a vote for a
    pair that already has a record replaces that record's optionId and
    timestamp at its position (same id, same length of the store) and is
    answered with the record and [updated: true]; a request in which
    questionId, optionId or deviceId is missing is answered with status 400
    and leaves the files as they are. *)
Theorem postVotes_one_vote_per_voter (fs : Files) (requests : list (Env * VoteBody)) :
  oneVotePerVoter fs →
  oneVotePerVoter (postVotesAll requests fs)
  ∧ (∀ env q o d i existing,
       q ≠ "" → o ≠ "" → d ≠ "" →
       votes (readVotesData (postVotesAll requests fs)) !! i = Some existing →
       Vote.questionId existing = q →
       Vote.deviceId existing = d →
       let updated := revote o (isoString env) existing in
       let answer := postVotes env (mkVoteBody (Some q) (Some o) (Some d))
                       (postVotesAll requests fs) in
       answer.1 = {| status := 200; json := VoteJson updated true |}
       ∧ votes (readVotesData answer.2)
         = <[i := updated]> (votes (readVotesData (postVotesAll requests fs)))
       ∧ length (votes (readVotesData answer.2))
         = length (votes (readVotesData (postVotesAll requests fs)))
       ∧ Vote.id updated = Vote.id existing
       ∧ Vote.optionId updated = o
       ∧ Vote.timestamp updated = isoString env
       ∧ EVENTS_FILE answer.2 = EVENTS_FILE (postVotesAll requests fs))
  ∧ (∀ env body,
       jsFalsy (body_questionId body) = true
       ∨ jsFalsy (body_optionId body) = true
       ∨ jsFalsy (body_deviceId body) = true →
       postVotes env body (postVotesAll requests fs)
       = ({| status := 400; json := ErrorJson "Missing required fields" |},
          postVotesAll requests fs)).
Proof.
  intros Hinv. pose proof (postVotesAll_invariant requests fs Hinv) as Hinv'.
  split; [done|]. split.
  - intros env q o d i existing Hq Ho Hd Hi Heq Hed. cbv zeta.
    rewrite (postVotes_update env q o d _ i existing) by done. simpl.
    repeat split. by rewrite length_insert.
  - intros env body Hmiss. apply postVotes_missing.
    destruct Hmiss as [->|[->| ->]]; by rewrite ?orb_true_r.
Qed.

(** C2, instance: device ["d1"] votes ["opt1"] and then ["opt2"] on
    question ["q1"], device ["d2"] votes once; the store holds two records
    and the first one now names ["opt2"]. *)
Lemma postVotes_one_vote_per_voter_witness :
  oneVotePerVoter
    (postVotesAll
       [ (env_at "1700000000000" "abc123xyz" "2023-11-14T22:13:20.000Z",
          mkVoteBody (Some "q1") (Some "opt1") (Some "d1"));
         (env_at "1700000000500" "def456uvw" "2023-11-14T22:13:20.500Z",
          mkVoteBody (Some "q1") (Some "opt1") (Some "d2")) ]
       no_files)
  ∧ votes (readVotesData
      (postVotes (env_at "1700000001000" "ghi789rst" "2023-11-14T22:13:21.000Z")
         (mkVoteBody (Some "q1") (Some "opt2") (Some "d1"))
         (postVotesAll
            [ (env_at "1700000000000" "abc123xyz" "2023-11-14T22:13:20.000Z",
               mkVoteBody (Some "q1") (Some "opt1") (Some "d1"));
              (env_at "1700000000500" "def456uvw" "2023-11-14T22:13:20.500Z",
               mkVoteBody (Some "q1") (Some "opt1") (Some "d2")) ]
            no_files)).2)
    = [ Vote.mk "vote_1700000000000_abc123xyz" "q1" "opt2" "d1" "2023-11-14T22:13:21.000Z";
        Vote.mk "vote_1700000000500_def456uvw" "q1" "opt1" "d2" "2023-11-14T22:13:20.500Z" ].
Proof.
  destruct (postVotes_one_vote_per_voter no_files
              [ (env_at "1700000000000" "abc123xyz" "2023-11-14T22:13:20.000Z",
                 mkVoteBody (Some "q1") (Some "opt1") (Some "d1"));
                (env_at "1700000000500" "def456uvw" "2023-11-14T22:13:20.500Z",
                 mkVoteBody (Some "q1") (Some "opt1") (Some "d2")) ]
              ltac:(apply NoDup_nil_2)) as (Hinv & Hupd & _).
  split; [exact Hinv|].
  destruct (Hupd (env_at "1700000001000" "ghi789rst" "2023-11-14T22:13:21.000Z")
              "q1" "opt2" "d1" 0
              (Vote.mk "vote_1700000000000_abc123xyz" "q1" "opt1" "d1"
                 "2023-11-14T22:13:20.000Z")
              ltac:(discriminate) ltac:(discriminate) ltac:(discriminate)
              eq_refl eq_refl eq_refl) as (_ & Hstore & _).
  rewrite Hstore. reflexivity.
Defined.

Lemma filter_filter_implies {A} (P Q : A → Prop)
    `{∀ x, Decision (P x)} `{∀ x, Decision (Q x)} (l : list A) :
  (∀ x, P x → Q x) → filter P (filter Q l) = filter P l.
Proof.
  intros HPQ. induction l as [|x l IH]; [done|].
  rewrite (filter_cons Q). destruct (decide (Q x)) as [HQ|HQ].
  - rewrite !filter_cons. by rewrite IH.
  - rewrite IH. rewrite (filter_cons P). destruct (decide (P x)); [|done].
    exfalso. by apply HQ, HPQ.
Qed.

Lemma setClearedQuestionId_twice a b event :
  setClearedQuestionId a (setClearedQuestionId b event) = setClearedQuestionId a event.
Proof. done. Qed.

(** Nothing is inherited under ["undefined"]. *)
Lemma inherited_undefined builtins : inherited "undefined" builtins = Nothing.
Proof.
  unfold inherited.
  rewrite (bool_decide_false ("undefined" ∈ prototypeNames)) by compute_done.
  by rewrite !bool_decide_false by done.
Qed.

Lemma inherited_member key builtins :
  key ∈ prototypeNames → inherited key builtins = Member key.
Proof. intros Hin. unfold inherited. by rewrite bool_decide_true. Qed.

Lemma readEventsData_write data fs : readEventsData (writeEventsData data fs) = data.
Proof. done. Qed.

(** The events handlers leave the votes file alone. *)
Lemma setClearedOn_files found value fs :
  EVENTS_FILE (setClearedOn found value fs) = EVENTS_FILE fs
  ∧ VOTES_FILE (setClearedOn found value fs) = VOTES_FILE fs.
Proof. by destruct found. Qed.

Lemma setCurrentOn_files found value fs :
  EVENTS_FILE (setCurrentOn found value fs) = EVENTS_FILE fs
  ∧ VOTES_FILE (setCurrentOn found value fs) = VOTES_FILE fs.
Proof. by destruct found. Qed.

Lemma deleteVotes_votes_file questionId fs :
  VOTES_FILE (deleteVotes questionId fs).2
  = Some {| votes := filter (λ v, Vote.questionId v ≠ questionId)
                       (votes (readVotesData fs)) |}.
Proof.
  unfold deleteVotes. cbv zeta. cbn [snd].
  destruct (jsLookup _ questionId _) as [question|found]; [|destruct (truthy found)];
    [| |done];
    (destruct (jsLookup _ _ _) as [event|found']; [done|];
     destruct (truthy found'); [|done]; by destruct found').
Qed.

(** C9: [DELETE /questions/{questionId}/votes] answers with success, keeps
    exactly the votes of the other questions (in their order) and, when the
    question is stored and its event exists, sets that event's
    clearedQuestionId to the question id, leaving the other events, the
    questions and the rest of the event as they are;
    [POST /events/{eventId}/clear-notification] then sets it back to null. *)
Theorem deleteVotes_clears_and_arms (questionId : string) (fs : Files) :
  (deleteVotes questionId fs).1 = {| status := 200; json := SuccessJson |}
  ∧ votes (readVotesData (deleteVotes questionId fs).2)
    = filter (λ v, Vote.questionId v ≠ questionId) (votes (readVotesData fs))
  ∧ getVotes questionId (deleteVotes questionId fs).2 = []
  ∧ (∀ other, other ≠ questionId →
       getVotes other (deleteVotes questionId fs).2 = getVotes other fs)
  ∧ (∀ question event,
       questions (readEventsData fs) !! questionId = Some question →
       events (readEventsData fs) !! Question.eventId question = Some event →
       events (readEventsData (deleteVotes questionId fs).2) !! Question.eventId question
         = Some (setClearedQuestionId (Some questionId) event)
       ∧ (∀ e, e ≠ Question.eventId question →
            events (readEventsData (deleteVotes questionId fs).2) !! e
            = events (readEventsData fs) !! e)
       ∧ questions (readEventsData (deleteVotes questionId fs).2)
         = questions (readEventsData fs)
       ∧ events (readEventsData
                   (postClearNotification (Question.eventId question)
                      (deleteVotes questionId fs).2).2)
           !! Question.eventId question
         = Some (setClearedQuestionId None event)).
Proof.
  assert (votes (readVotesData (deleteVotes questionId fs).2)
          = filter (λ v, Vote.questionId v ≠ questionId) (votes (readVotesData fs)))
    as Hvotes.
  { unfold readVotesData at 1. by rewrite deleteVotes_votes_file. }
  split; [done|]. split; [done|]. split; [|split].
  - unfold getVotes. rewrite Hvotes. clear Hvotes.
    induction (votes (readVotesData fs)) as [|v l IH]; [done|].
    rewrite (filter_cons (λ v, Vote.questionId v ≠ questionId)).
    case_decide as Hne; [|done]. by rewrite filter_cons_False.
  - intros other Hne. unfold getVotes. rewrite Hvotes.
    apply filter_filter_implies. by intros v ->.
  - intros question event Hquestion Hevent.
    unfold deleteVotes, postClearNotification, jsLookup.
    rewrite Hquestion. simpl. rewrite Hevent. simpl.
    rewrite lookup_insert_eq. simpl. rewrite lookup_insert_eq.
    repeat split. intros e He. by rewrite lookup_insert_ne.
Qed.

(** C9, instance: clearing ["q1"] keeps the vote on ["q2"] and arms the
    event ["demo"]; the acknowledgement disarms it. *)
Lemma deleteVotes_clears_and_arms_witness :
  votes (readVotesData (deleteVotes "q1" demo_files).2)
    = [ Vote.mk "v2" "q2" "opt1" "d1" "t2" ]
  ∧ Event.clearedQuestionId
      <$> events (readEventsData (deleteVotes "q1" demo_files).2) !! "demo"
    = Some (Some "q1")
  ∧ Event.clearedQuestionId
      <$> events (readEventsData
                    (postClearNotification "demo" (deleteVotes "q1" demo_files).2).2)
          !! "demo"
    = Some None.
Proof.
  destruct (deleteVotes_clears_and_arms "q1" demo_files) as (_ & Hvotes & _ & _ & Harm).
  split; [rewrite Hvotes; reflexivity|].
  destruct (Harm demo_question demo_event eq_refl eq_refl) as (Hset & _ & _ & Hreset).
  split.
  - change "demo" with (Question.eventId demo_question). rewrite Hset. reflexivity.
  - change "demo" with (Question.eventId demo_question). rewrite Hreset. reflexivity.
Defined.

(** C10 (as amended): the answer is 400 exactly when questionId is missing
    or empty; for an event id under which the events object inherits
    nothing from [Object.prototype], it is 404 exactly when questionId is
    present and the event id is not in the events store; both answers leave
    the files, and everything else a request can see, as they are.  For a
    stored event the event's currentQuestionId becomes the given string,
    whether or not any question has that id, and the answer is success. *)
Theorem putCurrentQuestion_outcomes (eventId : string) (questionId : option string)
    (fs : Files) :
  (status (putCurrentQuestion eventId questionId fs).1 = 400
   ↔ jsFalsy questionId = true)
  ∧ (inherited eventId (BUILTINS fs) = Nothing →
     (status (putCurrentQuestion eventId questionId fs).1 = 404
      ↔ jsFalsy questionId = false ∧ events (readEventsData fs) !! eventId = None))
  ∧ (status (putCurrentQuestion eventId questionId fs).1 = 400
     ∨ status (putCurrentQuestion eventId questionId fs).1 = 404 →
     (putCurrentQuestion eventId questionId fs).2 = fs)
  ∧ (∀ q event,
       questionId = Some q → q ≠ "" →
       events (readEventsData fs) !! eventId = Some event →
       putCurrentQuestion eventId questionId fs
       = ({| status := 200; json := SuccessJson |},
          writeEventsData
            {| events := <[eventId := setCurrentQuestionId (Some q) event]>
                           (events (readEventsData fs));
               questions := questions (readEventsData fs) |} fs)
       ∧ Event.currentQuestionId
           <$> events (readEventsData (putCurrentQuestion eventId questionId fs).2)
               !! eventId
         = Some (Some q)).
Proof.
  unfold putCurrentQuestion, jsLookup.
  destruct (jsFalsy questionId) eqn:Hq.
  - simpl. split; [done|]. split; [intros _; split; [lia|by intros [? _]]|].
    split; [done|].
    intros q event -> Hne. by rewrite jsFalsy_Some in Hq.
  - destruct (events (readEventsData fs) !! eventId) as [event|] eqn:He; cbv zeta.
    + simpl. split; [split; [lia|done]|].
      split; [intros _; split; [lia|by intros [_ ?]]|].
      split; [intros [?|?]; lia|].
      intros q event' -> Hne [= <-]. split; [done|]. by rewrite lookup_insert_eq.
    + split; [destruct (truthy _); simpl; split; (lia || done)|].
      split; [intros ->; simpl; done|].
      split; [destruct (truthy _); simpl; [intros [?|?]; lia|done]|].
      intros q event _ _ ?. done.
Qed.

(** C10, instance: the event ["demo"] is pointed at an id no question has. *)
Lemma putCurrentQuestion_outcomes_witness :
  questions (readEventsData demo_files) !! "no-such-question" = None
  ∧ putCurrentQuestion "demo" (Some "no-such-question") demo_files
    = ({| status := 200; json := SuccessJson |},
       writeEventsData
         {| events := <["demo" := setCurrentQuestionId (Some "no-such-question") demo_event]>
                        (events (readEventsData demo_files));
            questions := questions (readEventsData demo_files) |} demo_files).
Proof.
  split; [reflexivity|].
  destruct (putCurrentQuestion_outcomes "demo" (Some "no-such-question") demo_files)
    as (_ & _ & _ & Hset).
  exact (proj1 (Hset "no-such-question" demo_event eq_refl ltac:(discriminate) eq_refl)).
Defined.

(** C10, the restriction is needed: under ["constructor"] the events object
    finds the function every object inherits, so the request is answered
    with success although no such event is stored, and the events file is
    written. *)
Example putCurrentQuestion_inherited_name :
  events (readEventsData no_files) !! "constructor" = None
  ∧ (putCurrentQuestion "constructor" (Some "q1") no_files).1
    = {| status := 200; json := SuccessJson |}
  ∧ EVENTS_FILE (putCurrentQuestion "constructor" (Some "q1") no_files).2
    = Some {| events := ∅; questions := ∅ |}.
Proof. repeat split. Qed.

(** C10, as stated, fails: with questionId missing the answer is 400 also
    when the event id is not in the events store. *)
Lemma putCurrentQuestion_counterexample :
  events (readEventsData no_files) !! "no-such-event" = None
  ∧ putCurrentQuestion "no-such-event" None no_files
    = ({| status := 400; json := ErrorJson "Missing questionId" |}, no_files).
Proof. split; reflexivity. Qed.

(* ===================================================================== *)
(** * Properties of the polling subscriptions *)
(* ===================================================================== *)

(** One step of a subscription, by cases on the event and on the tests the
    source makes. *)
Ltac step_cases :=
  repeat match goal with
  | e : PollEvent _ |- _ => destruct e
  | r : Fetched _ |- _ => destruct r
  | |- context [match ?n with O => _ | S _ => _ end] => destruct n eqn:?
  | |- context [if ?b then _ else _] => destruct b eqn:?
  end; simpl in *; try done.

Lemma votesStep_unsubscribed s e :
  VotesSub.isSubscribed s = false →
  VotesSub.isSubscribed (votesStep s e) = false
  ∧ VotesSub.callback (votesStep s e) = VotesSub.callback s.
Proof.
  intros Hs. destruct s as [sub timer n calls]; simpl in Hs; subst.
  unfold votesStep, fetchVotes; simpl. step_cases.
Qed.

Lemma votesRun_unsubscribed es s :
  VotesSub.isSubscribed s = false →
  VotesSub.callback (votesRun es s) = VotesSub.callback s.
Proof.
  revert s. induction es as [|e es IH]; intros s Hs; [done|]. simpl.
  destruct (votesStep_unsubscribed s e Hs) as [Hs' Hc]. by rewrite IH.
Qed.

Lemma questionStep_unsubscribed s e :
  QuestionSub.isSubscribed s = false →
  QuestionSub.isSubscribed (questionStep s e) = false
  ∧ QuestionSub.callback (questionStep s e) = QuestionSub.callback s.
Proof.
  intros Hs. destruct s as [sub lastId timer n calls]; simpl in Hs; subst.
  unfold questionStep, fetchCurrentQuestion; simpl. step_cases.
Qed.

Lemma questionRun_unsubscribed es s :
  QuestionSub.isSubscribed s = false →
  QuestionSub.callback (questionRun es s) = QuestionSub.callback s.
Proof.
  revert s. induction es as [|e es IH]; intros s Hs; [done|]. simpl.
  destruct (questionStep_unsubscribed s e Hs) as [Hs' Hc]. by rewrite IH.
Qed.

Lemma clearedStep_unsubscribed s e :
  ClearedSub.isSubscribed s = false →
  ClearedSub.isSubscribed (clearedStep s e) = false
  ∧ ClearedSub.callback (clearedStep s e) = ClearedSub.callback s
  ∧ ClearedSub.acknowledged (clearedStep s e) = ClearedSub.acknowledged s.
Proof.
  intros Hs. destruct s as [sub lastId timer n calls acks]; simpl in Hs; subst.
  unfold clearedStep, fetchCleared; simpl. step_cases.
Qed.

Lemma clearedRun_unsubscribed es s :
  ClearedSub.isSubscribed s = false →
  ClearedSub.callback (clearedRun es s) = ClearedSub.callback s
  ∧ ClearedSub.acknowledged (clearedRun es s) = ClearedSub.acknowledged s.
Proof.
  revert s. induction es as [|e es IH]; intros s Hs; [done|]. simpl.
  destruct (clearedStep_unsubscribed s e Hs) as (Hs' & Hc & Ha).
  destruct (IH _ Hs') as [Hc' Ha']. split; congruence.
Qed.

(** C8: in each of the three subscriptions, calling the returned function
    clears the subscribed flag and cancels the timer, and whatever happens
    afterwards (timer ticks, fetches in flight that settle, further calls of
    the function) the callback is not invoked again; the clear-notification
    subscription sends no further acknowledgement either. *)
Theorem unsubscribe_silences_callback :
  (∀ before after,
     VotesSub.isSubscribed (votesRun (before ++ [Unsubscribe]) subscribeToVotes) = false
     ∧ VotesSub.intervalId (votesRun (before ++ [Unsubscribe]) subscribeToVotes) = false
     ∧ VotesSub.callback (votesRun (before ++ Unsubscribe :: after) subscribeToVotes)
       = VotesSub.callback (votesRun before subscribeToVotes))
  ∧ (∀ before after,
     QuestionSub.isSubscribed
       (questionRun (before ++ [Unsubscribe]) subscribeToCurrentQuestion) = false
     ∧ QuestionSub.intervalId
         (questionRun (before ++ [Unsubscribe]) subscribeToCurrentQuestion) = false
     ∧ QuestionSub.callback
         (questionRun (before ++ Unsubscribe :: after) subscribeToCurrentQuestion)
       = QuestionSub.callback (questionRun before subscribeToCurrentQuestion))
  ∧ (∀ before after,
     ClearedSub.isSubscribed
       (clearedRun (before ++ [Unsubscribe]) subscribeToVoteCleared) = false
     ∧ ClearedSub.intervalId
         (clearedRun (before ++ [Unsubscribe]) subscribeToVoteCleared) = false
     ∧ ClearedSub.callback
         (clearedRun (before ++ Unsubscribe :: after) subscribeToVoteCleared)
       = ClearedSub.callback (clearedRun before subscribeToVoteCleared)
     ∧ ClearedSub.acknowledged
         (clearedRun (before ++ Unsubscribe :: after) subscribeToVoteCleared)
       = ClearedSub.acknowledged (clearedRun before subscribeToVoteCleared)).
Proof.
  split; [|split]; intros before after.
  - unfold votesRun. rewrite !fold_left_app. simpl. repeat split.
    by rewrite (votesRun_unsubscribed after).
  - unfold questionRun. rewrite !fold_left_app. simpl. repeat split.
    by rewrite (questionRun_unsubscribed after).
  - unfold clearedRun. rewrite !fold_left_app. cbn [fold_left].
    split; [done|]. split; [done|].
    by apply (clearedRun_unsubscribed after (clearedStep _ Unsubscribe)).
Qed.

(** A fetch in flight when the subscription ends is dropped on arrival. *)
Example late_response_discarded :
  VotesSub.callback
    (votesRun [Tick; Unsubscribe; Settle (Ok [vote_for "opt1"]); Tick;
               Settle (Ok [vote_for "opt2"])] subscribeToVotes) = []
  ∧ ClearedSub.callback
      (clearedRun [Settle (Ok (Some "q1")); Tick; Unsubscribe; Settle (Ok (Some "q2"))]
                  subscribeToVoteCleared) = ["q1"].
Proof. split; reflexivity. Qed.

Lemma noRepeat_snoc {A} `{EqDecision A} (calls : list A) (x : A) :
  noRepeat calls = true → last calls ≠ Some x → noRepeat (calls ++ [x]) = true.
Proof.
  induction calls as [|y calls IH]; [done|].
  destruct calls as [|z calls]; intros Hnr Hlast.
  - simpl. rewrite bool_decide_false; [done|]. intros ->. by apply Hlast.
  - change (noRepeat ((y :: z :: calls) ++ [x]))
      with (negb (bool_decide (y = z)) && noRepeat ((z :: calls) ++ [x])).
    change (noRepeat (y :: z :: calls))
      with (negb (bool_decide (y = z)) && noRepeat (z :: calls)) in Hnr.
    apply andb_true_iff in Hnr as [Hyz Hnr]. rewrite Hyz. simpl. by apply IH.
Qed.

(** A settled fetch either leaves the calls as they are or adds one call
    with a value other than the one held. *)
Lemma fetchCurrentQuestion_calls r s :
  QuestionSub.callback (fetchCurrentQuestion r s) = QuestionSub.callback s
  ∧ QuestionSub.lastQuestionId (fetchCurrentQuestion r s) = QuestionSub.lastQuestionId s
  ∨ ∃ v, r = Ok v
         ∧ QuestionSub.isSubscribed s = true
         ∧ orNull v ≠ QuestionSub.lastQuestionId s
         ∧ QuestionSub.lastQuestionId (fetchCurrentQuestion r s) = orNull v
         ∧ QuestionSub.callback (fetchCurrentQuestion r s)
           = (QuestionSub.callback s ++ [orNull v])%list.
Proof.
  destruct r as [v|]; [|by left]. unfold fetchCurrentQuestion.
  destruct (QuestionSub.isSubscribed s) eqn:Hs; [|by left].
  case_bool_decide as Hne; [|by left]. right. by exists v.
Qed.

Lemma questionStep_calls s e :
  QuestionSub.callback (questionStep s e) = QuestionSub.callback s
  ∧ QuestionSub.lastQuestionId (questionStep s e) = QuestionSub.lastQuestionId s
  ∨ ∃ v, e = Settle (Ok v)
         ∧ orNull v ≠ QuestionSub.lastQuestionId s
         ∧ QuestionSub.lastQuestionId (questionStep s e) = orNull v
         ∧ QuestionSub.callback (questionStep s e)
           = (QuestionSub.callback s ++ [orNull v])%list.
Proof.
  destruct e as [|r|]; simpl.
  - left. by destruct (_ && _).
  - destruct (QuestionSub.inFlight s) as [|n] eqn:Hn; [by left|].
    destruct (fetchCurrentQuestion_calls r
                {| QuestionSub.isSubscribed := QuestionSub.isSubscribed s;
                   QuestionSub.lastQuestionId := QuestionSub.lastQuestionId s;
                   QuestionSub.intervalId := QuestionSub.intervalId s;
                   QuestionSub.inFlight := n;
                   QuestionSub.callback := QuestionSub.callback s |})
      as [H|(v & -> & _ & H)]; [by left|]. right. by exists v.
  - by left.
Qed.

Lemma questionStep_inv s e : questionInv s → questionInv (questionStep s e).
Proof.
  intros [Hnr Hlast].
  destruct (questionStep_calls s e) as [[Hc Hl]|(v & -> & Hne & Hl & Hc)].
  - unfold questionInv. by rewrite Hc, Hl.
  - unfold questionInv, lastDelivered. rewrite Hc, Hl, last_snoc. split; [|done].
    apply noRepeat_snoc; [done|]. intros Heq. apply Hne.
    rewrite Hlast. unfold lastDelivered. by rewrite Heq.
Qed.

Lemma questionRun_inv es s : questionInv s → questionInv (questionRun es s).
Proof.
  revert s. induction es as [|e es IH]; intros s Hs; [done|].
  simpl. by apply IH, questionStep_inv.
Qed.

(** The same value settling twice in a row is delivered at most once. *)
Lemma questionStep_same_value s v :
  QuestionSub.callback (questionStep (questionStep s (Settle (Ok v))) (Settle (Ok v)))
  = QuestionSub.callback (questionStep s (Settle (Ok v))).
Proof.
  destruct s as [sub lastId timer n calls].
  destruct n as [|[|n]]; [done| |].
  - simpl. destruct sub; [|done]. simpl. by case_bool_decide.
  - simpl. destruct sub; [|done]. simpl.
    case_bool_decide as Hne; simpl.
    + rewrite bool_decide_false; [done|]. intros H. by apply H.
    + by case_bool_decide.
Qed.

(** C3: at any point of a subscription to the current question, the value
    the closure compares with is the value delivered last ([null] before the
    first delivery); a settled fetch invokes the callback only with a value
    (after [|| null]) other than that one; a timer tick invokes nothing; two
    fetches settling one after the other with the same value, [null]
    included, cause at most one call; and no two calls in a row carry the
    same value. *)
Theorem currentQuestion_change_detection
    (es : list (PollEvent (option string))) (r : Fetched (option string))
    (v : option string) :
  let s := questionRun es subscribeToCurrentQuestion in
  QuestionSub.lastQuestionId s = lastDelivered (QuestionSub.callback s)
  ∧ (QuestionSub.callback (questionStep s (Settle r)) = QuestionSub.callback s
     ∨ ∃ v', r = Ok v'
             ∧ orNull v' ≠ lastDelivered (QuestionSub.callback s)
             ∧ QuestionSub.callback (questionStep s (Settle r))
               = (QuestionSub.callback s ++ [orNull v'])%list)
  ∧ QuestionSub.callback (questionStep s Tick) = QuestionSub.callback s
  ∧ QuestionSub.callback (questionStep (questionStep s (Settle (Ok v))) (Settle (Ok v)))
    = QuestionSub.callback (questionStep s (Settle (Ok v)))
  ∧ noRepeat (QuestionSub.callback s) = true.
Proof.
  intros s.
  assert (questionInv s) as [Hnr Hlast] by (by apply questionRun_inv).
  split; [done|]. split; [|split; [|split; [|done]]].
  - destruct (questionStep_calls s (Settle r)) as [[Hc _]|(v' & [= ->] & Hne & _ & Hc)].
    + by left.
    + right. exists v'. by rewrite <- Hlast.
  - simpl. by destruct (_ && _).
  - apply questionStep_same_value.
Qed.

(** When every fetch settles before the next tick, the calls are the
    changes of the fetched sequence, starting from [null]. *)
Lemma questionRun_polled values s :
  QuestionSub.isSubscribed s = true →
  QuestionSub.intervalId s = true →
  QuestionSub.inFlight s = 0 →
  QuestionSub.callback (questionRun (polled values) s)
  = (QuestionSub.callback s
     ++ changes (QuestionSub.lastQuestionId s) (orNull <$> values))%list.
Proof.
  revert s. induction values as [|v values IH]; intros s Hsub Htimer Hfly.
  - simpl. by rewrite app_nil_r.
  - destruct s as [sub lastId timer n calls]. simpl in Hsub, Htimer, Hfly. subst.
    change (polled (v :: values)) with (Tick :: Settle (Ok v) :: polled values).
    cbn [questionRun fold_left]. simpl. csimpl.
    case_bool_decide as Hne; simpl.
    + unfold questionRun in IH. rewrite IH by done. simpl. by rewrite <- app_assoc.
    + unfold questionRun in IH. by rewrite IH.
Qed.

Lemma subscribeToCurrentQuestion_polled v values :
  QuestionSub.callback
    (questionRun (Settle (Ok v) :: polled values) subscribeToCurrentQuestion)
  = changes None (orNull <$> v :: values).
Proof.
  cbn [questionRun fold_left]. simpl. csimpl. case_bool_decide as Hne; simpl.
  - by rewrite (questionRun_polled values).
  - by rewrite (questionRun_polled values).
Qed.

(** The calls of a run in which the server answers null, "q1" twice, null
    twice and "q2". *)
Example currentQuestion_run :
  QuestionSub.callback
    (questionRun [Settle (Ok None); Tick; Settle (Ok (Some "q1")); Tick;
                  Settle (Ok (Some "q1")); Tick; Settle Failed; Tick;
                  Settle (Ok None); Tick; Settle (Ok (Some "")); Tick;
                  Settle (Ok (Some "q2"))]
                 subscribeToCurrentQuestion)
  = [Some "q1"; None; Some "q2"].
Proof. reflexivity. Qed.





(* ===================================================================== *)
(** * Further properties of the stats calculator *)
(* ===================================================================== *)

Lemma keys_map_set {V} k (v : V) (m : JsMap V) :
  keys (map_set k v m) = if bool_decide (k ∈ keys m) then keys m else (keys m ++ [k])%list.
Proof.
  unfold keys. induction m as [|[k' v'] m IH]; csimpl.
  - done.
  - destruct (bool_decide_reflect (k' = k)) as [->|Hne]; csimpl.
    + by rewrite bool_decide_true by left.
    + rewrite IH. case_bool_decide as Hin.
      * by rewrite bool_decide_true by by right.
      * rewrite bool_decide_false; [done|].
        intros [?|?]%elem_of_cons; by simplify_eq.
Qed.

Lemma map_get_elem {V} k (v : V) (m : JsMap V) :
  NoDup (keys m) → (k, v) ∈ m → map_get k m = Some v.
Proof.
  unfold keys. induction m as [|[k' v'] m IH]; csimpl; intros Hnd Hin.
  - by apply elem_of_nil in Hin.
  - apply NoDup_cons in Hnd as [Hk' Hnd].
    apply elem_of_cons in Hin as [[= -> ->]|Hin].
    + by rewrite bool_decide_true.
    + rewrite bool_decide_false; [by apply IH|].
      intros ->. apply Hk'. apply list_elem_of_fmap. by exists (k, v).
Qed.

Lemma firstSeen_elem x ids : x ∈ firstSeen ids ↔ x ∈ ids.
Proof.
  induction ids as [|y ids IH]; [done|]. simpl.
  rewrite !elem_of_cons, list_elem_of_filter, IH.
  destruct (decide (x = y)); tauto.
Qed.

Lemma firstSeen_NoDup ids : NoDup (firstSeen ids).
Proof.
  induction ids as [|y ids IH]; simpl; [constructor|].
  apply NoDup_cons. split; [|by apply NoDup_filter].
  rewrite list_elem_of_filter. by intros [Hne _].
Qed.

(** The keys of the count map grow by first occurrence. *)
Lemma countVotes_keys_from vs (m : JsMap nat) :
  keys (fold_left countVote vs m)
  = (keys m ++ filter (λ y, y ∉ keys m) (firstSeen (Vote.optionId <$> vs)))%list.
Proof.
  revert m. induction vs as [|v vs IH]; intros m; csimpl.
  - by rewrite app_nil_r.
  - rewrite IH. unfold countVote. cbv zeta. rewrite keys_map_set.
    set (L := firstSeen (Vote.optionId <$> vs)).
    case_bool_decide as Hin.
    + rewrite filter_cons_False by (intros Hout; by apply Hout). f_equal.
      symmetry. apply filter_filter_implies. intros y Hy ->. done.
    + rewrite filter_cons_True by done. rewrite <- app_assoc. cbn [app]. do 2 f_equal.
      rewrite list_filter_filter. apply list_filter_iff. intros y.
      rewrite elem_of_app, list_elem_of_singleton. tauto.
Qed.

Lemma countVotes_keys vs :
  keys (countVotes vs) = firstSeen (Vote.optionId <$> vs).
Proof.
  unfold countVotes. rewrite countVotes_keys_from. cbn [keys fmap list_fmap app].
  induction (firstSeen (Vote.optionId <$> vs)) as [|y l IH]; [done|].
  rewrite filter_cons_True by apply not_elem_of_nil. by rewrite IH.
Qed.

Lemma votesFor_le k vs : (votesFor k vs ≤ length vs)%nat.
Proof. unfold votesFor. apply length_filter. Qed.

Lemma votesFor_pos k vs : k ∈ Vote.optionId <$> vs → (1 ≤ votesFor k vs)%nat.
Proof.
  induction vs as [|v vs IH]; csimpl; [by intros ?%elem_of_nil|].
  rewrite votesFor_cons. intros [->|Hin]%elem_of_cons.
  - rewrite bool_decide_true by done. lia.
  - specialize (IH Hin). lia.
Qed.

Lemma calculateStats_no_options_ids vs :
  OptionStat.optionId <$> VoteStats.options (calculateStats vs [])
  = firstSeen (Vote.optionId <$> vs).
Proof.
  rewrite calculateStats_no_options. cbn [VoteStats.options].
  rewrite <- list_fmap_compose. by rewrite <- countVotes_keys.
Qed.

Lemma calculateStats_no_options_entries vs :
  Forall (λ s, OptionStat.label s = OptionStat.optionId s
               ∧ OptionStat.count s = votesFor (OptionStat.optionId s) vs
               ∧ (1 ≤ OptionStat.count s)%nat)
    (VoteStats.options (calculateStats vs [])).
Proof.
  rewrite calculateStats_no_options. cbn [VoteStats.options].
  apply Forall_fmap, Forall_forall. intros [k c] Hin. simpl.
  assert (c = votesFor k vs) as ->.
  { pose proof (countVotes_get k vs) as Hget.
    rewrite (map_get_elem k c) in Hget; [done| |done].
    rewrite countVotes_keys. apply firstSeen_NoDup. }
  split; [done|]. split; [done|]. apply votesFor_pos.
  apply firstSeen_elem. rewrite <- countVotes_keys.
  apply list_elem_of_fmap. by exists (k, votesFor k vs).
Qed.

(** C7: every returned entry has [percentage = count / totalVotes * 100]
    (in binary64 arithmetic) when [totalVotes > 0] and [percentage = 0] when
    [totalVotes = 0], where [totalVotes] is the number of votes; and the
    entries are there: each supplied option has its entry, at its position,
    with its number of votes and the percentage of that number; without
    supplied options each option id that occurs in the votes has one; the
    empty vote list gives [totalVotes = 0] and, for each supplied option,
    the entry with count 0 and percentage 0. *)
Theorem calculateStats_percentage (vs : list Vote.t) (os : list Option.t) :
  Forall (λ s,
    (0 < VoteStats.totalVotes (calculateStats vs os) →
     OptionStat.percentage s =
       (number (OptionStat.count s)
        / number (VoteStats.totalVotes (calculateStats vs os)) * 100)%float)
    ∧ (VoteStats.totalVotes (calculateStats vs os) = 0 →
       OptionStat.percentage s = 0%float))
    (VoteStats.options (calculateStats vs os))
  ∧ VoteStats.totalVotes (calculateStats vs os) = length vs
  ∧ (∀ i o, os !! i = Some o →
       ∃ s, VoteStats.options (calculateStats vs os) !! i = Some s
            ∧ OptionStat.optionId s = Option.id o
            ∧ OptionStat.count s = votesFor (Option.id o) vs
            ∧ (0 < length vs →
               OptionStat.percentage s =
                 (number (votesFor (Option.id o) vs) / number (length vs) * 100)%float)
            ∧ (length vs = 0 → OptionStat.percentage s = 0%float))
  ∧ (os = [] →
     ∀ k, k ∈ Vote.optionId <$> vs →
       ∃ s, s ∈ VoteStats.options (calculateStats vs os)
            ∧ OptionStat.optionId s = k
            ∧ OptionStat.count s = votesFor k vs
            ∧ OptionStat.percentage s =
                (number (votesFor k vs) / number (length vs) * 100)%float)
  ∧ VoteStats.totalVotes (calculateStats [] os) = 0
  ∧ Forall (λ s, OptionStat.percentage s = 0%float)
      (VoteStats.options (calculateStats [] os))
  ∧ calculateStats [] os
    = {| VoteStats.totalVotes := 0;
         VoteStats.options :=
           (λ o, {| OptionStat.optionId := Option.id o;
                    OptionStat.label := Option.label o;
                    OptionStat.count := 0;
                    OptionStat.percentage := 0%float |}) <$> os |}.
Proof.
  assert (∀ c n, (0 < n → percentageOf c n = (number c / number n * 100)%float)
                 ∧ (n = 0 → percentageOf c n = 0%float)) as Hp.
  { intros c n. unfold percentageOf. destruct (Nat.ltb_spec 0 n); split; intros; try lia; done. }
  assert (VoteStats.totalVotes (calculateStats vs os) = length vs) as Htotal.
  { destruct (decide (os = [])) as [->|Hos].
    - by rewrite calculateStats_no_options.
    - by rewrite calculateStats_options. }
  assert (Forall (λ s,
      (0 < VoteStats.totalVotes (calculateStats vs os) →
       OptionStat.percentage s =
         (number (OptionStat.count s)
          / number (VoteStats.totalVotes (calculateStats vs os)) * 100)%float)
      ∧ (VoteStats.totalVotes (calculateStats vs os) = 0 →
         OptionStat.percentage s = 0%float))
      (VoteStats.options (calculateStats vs os))) as Hall.
  { destruct (decide (os = [])) as [->|Hos].
    - rewrite calculateStats_no_options. cbn [VoteStats.options VoteStats.totalVotes].
      apply Forall_fmap, Forall_forall. intros [k c] _. apply Hp.
    - rewrite calculateStats_options by done.
      cbn [VoteStats.options VoteStats.totalVotes].
      apply Forall_fmap, Forall_forall. intros o _. apply Hp. }
  split; [exact Hall|]. split; [exact Htotal|].
  split; [|split; [|split; [done|split]]].
  - intros i o Hi.
    assert (os ≠ []) as Hos by (intros ->; by rewrite lookup_nil in Hi).
    rewrite calculateStats_options by done. cbn [VoteStats.options].
    exists (statOfOption vs o). rewrite list_lookup_fmap, Hi.
    split; [done|]. split; [done|]. split; [done|]. apply Hp.
  - intros -> k Hk.
    assert (k ∈ OptionStat.optionId <$> VoteStats.options (calculateStats vs [])) as Hin.
    { rewrite calculateStats_no_options_ids. by apply firstSeen_elem. }
    apply list_elem_of_fmap in Hin as (s & -> & Hs).
    exists s. split; [done|]. split; [done|].
    pose proof (calculateStats_no_options_entries vs) as Hentries.
    rewrite Forall_forall in Hentries, Hall.
    destruct (Hentries s Hs) as (_ & Hcount & Hpos).
    split; [done|].
    destruct (Hall s Hs) as [Hpct _]. rewrite Htotal in Hpct.
    rewrite <- Hcount. apply Hpct.
    pose proof (votesFor_le (OptionStat.optionId s) vs). lia.
  - destruct (decide (os = [])) as [->|Hos]; [by constructor|].
    rewrite calculateStats_options by done. cbn [VoteStats.options].
    apply Forall_fmap, Forall_forall. intros o _. done.
  - destruct (decide (os = [])) as [->|Hos]; [done|].
    by rewrite calculateStats_options.
Qed.

(** C7, instance: three votes on two supplied options and on none; no vote
    on two supplied options. *)
Example calculateStats_percentage_demo :
  OptionStat.percentage
    <$> VoteStats.options
          (calculateStats [vote_for "opt1"; vote_for "opt1"; vote_for "opt2"]
                          [option_named "opt1" "A"; option_named "opt2" "B"])
  = [ (2 / 3 * 100)%float; (1 / 3 * 100)%float ]
  ∧ OptionStat.percentage
      <$> VoteStats.options
            (calculateStats [vote_for "opt1"; vote_for "opt1"; vote_for "opt2"] [])
    = [ (2 / 3 * 100)%float; (1 / 3 * 100)%float ]
  ∧ OptionStat.percentage
      <$> VoteStats.options
            (calculateStats [] [option_named "opt1" "A"; option_named "opt2" "B"])
    = [ 0%float; 0%float ].
Proof. repeat split. Qed.

(** With the option list omitted or empty: one entry per distinct option id
    of the votes, in the order in which the ids first occur; each entry is
    labelled with its id and counts the votes naming it, at least one. *)
Theorem calculateStats_first_seen (vs : list Vote.t) :
  OptionStat.optionId <$> VoteStats.options (calculateStats vs [])
  = firstSeen (Vote.optionId <$> vs)
  ∧ NoDup (OptionStat.optionId <$> VoteStats.options (calculateStats vs []))
  ∧ Forall (λ s, OptionStat.label s = OptionStat.optionId s
                 ∧ OptionStat.count s = votesFor (OptionStat.optionId s) vs
                 ∧ (1 ≤ OptionStat.count s)%nat)
      (VoteStats.options (calculateStats vs [])).
Proof.
  split; [apply calculateStats_no_options_ids|]. split.
  - rewrite calculateStats_no_options_ids. apply firstSeen_NoDup.
  - apply calculateStats_no_options_entries.
Qed.

Lemma sum_named_le (x : string) (ks : list string) :
  NoDup ks → (sum_list ((λ k, if bool_decide (x = k) then 1 else 0) <$> ks) ≤ 1)%nat.
Proof.
  intros Hnd. destruct (decide (x ∈ ks)).
  - by rewrite sum_named_once.
  - rewrite sum_named_absent by done. lia.
Qed.

Lemma sum_votesFor_le (ks : list string) (vs : list Vote.t) :
  NoDup ks → (sum_list ((λ k, votesFor k vs) <$> ks) ≤ length vs)%nat.
Proof.
  intros Hnd. induction vs as [|v vs IH].
  - induction ks as [|k ks IHk]; csimpl; [done|].
    apply NoDup_cons in Hnd as [_ Hnd]. specialize (IHk Hnd). simpl in IHk. lia.
  - erewrite list_fmap_ext; last (intros _ k _; apply votesFor_cons).
    rewrite sum_list_fmap_plus. pose proof (sum_named_le (Vote.optionId v) ks Hnd).
    simpl. lia.
Qed.

(** No entry counts more votes than there are, whatever the option list;
    with pairwise distinct option ids the counts together do not exceed
    [totalVotes] either (votes naming no listed option are left out). *)
Theorem calculateStats_never_overcounts (vs : list Vote.t) (os : list Option.t) :
  Forall (λ s, (OptionStat.count s ≤ VoteStats.totalVotes (calculateStats vs os))%nat)
    (VoteStats.options (calculateStats vs os))
  ∧ (NoDup (Option.id <$> os) →
     (sumCounts (calculateStats vs os) ≤ VoteStats.totalVotes (calculateStats vs os))%nat).
Proof.
  destruct (decide (os = [])) as [->|Hos].
  - split.
    + eapply Forall_impl; [apply calculateStats_no_options_entries|].
      intros s (_ & -> & _). apply votesFor_le.
    + intros _. rewrite sumCounts_sum_list, calculateStats_no_options.
      cbn [VoteStats.options VoteStats.totalVotes]. rewrite <- list_fmap_compose.
      pose proof (countVotes_sum vs) as Hsum. unfold sumValues in Hsum.
      apply Nat.eq_le_incl. etrans; [|exact Hsum]. done.
  - rewrite calculateStats_options by done. cbn [VoteStats.options VoteStats.totalVotes].
    split.
    + apply Forall_fmap, Forall_forall. intros o _. apply votesFor_le.
    + intros Hnd. rewrite sumCounts_sum_list. cbn [VoteStats.options].
      rewrite <- list_fmap_compose.
      etrans; [|apply (sum_votesFor_le (Option.id <$> os) vs Hnd)].
      by rewrite <- list_fmap_compose.
Qed.

Lemma votesFor_Permutation k vs vs' : vs ≡ₚ vs' → votesFor k vs = votesFor k vs'.
Proof. intros Hperm. unfold votesFor. by rewrite Hperm. Qed.

Lemma calculateStats_vote_order_aux (vs vs' : list Vote.t) (os : list Option.t) :
  os ≠ [] → vs ≡ₚ vs' → calculateStats vs os = calculateStats vs' os.
Proof.
  intros Hos Hperm. rewrite !calculateStats_options by done.
  rewrite (Permutation_length Hperm). f_equal.
  apply list_fmap_ext. intros _ o _. unfold statOfOption.
  by rewrite (votesFor_Permutation _ _ _ Hperm), (Permutation_length Hperm).
Qed.

(** With a non-empty option list the result does not depend on the order
    in which the votes arrive. *)
Theorem calculateStats_vote_order (vs vs' : list Vote.t) (os : list Option.t) :
  os ≠ [] → vs ≡ₚ vs' → calculateStats vs os = calculateStats vs' os.
Proof. apply calculateStats_vote_order_aux. Qed.

(** With the option list omitted the entries follow the votes. *)
Example calculateStats_vote_order_omitted :
  calculateStats [vote_for "a"; vote_for "b"] []
  ≠ calculateStats [vote_for "b"; vote_for "a"] [].
Proof. discriminate. Qed.

Lemma calculateStats_vote_order_witness :
  calculateStats [vote_for "opt1"; vote_for "opt2"; vote_for "opt1"]
                 [option_named "opt1" "A"; option_named "opt2" "B"]
  = calculateStats [vote_for "opt2"; vote_for "opt1"; vote_for "opt1"]
                   [option_named "opt1" "A"; option_named "opt2" "B"].
Proof.
  apply (calculateStats_vote_order
           [vote_for "opt1"; vote_for "opt2"; vote_for "opt1"]
           [vote_for "opt2"; vote_for "opt1"; vote_for "opt1"]
           [option_named "opt1" "A"; option_named "opt2" "B"]); [discriminate|].
  apply (perm_swap (vote_for "opt2") (vote_for "opt1") [vote_for "opt1"]).
Defined.

(* ===================================================================== *)
(** * Properties of the display screen *)
(* ===================================================================== *)

Lemma optionDiffers_false (a b : list OptionStat.t) i :
  optionDiffers a b i = false ↔
  ∃ x y, a !! i = Some x ∧ b !! i = Some y ∧ statKey x = statKey y.
Proof.
  unfold optionDiffers, statKey.
  destruct (a !! i) as [x|], (b !! i) as [y|]; try (split; [done|by intros (? & ? & ? & ? & _)]).
  rewrite orb_false_iff, !negb_false_iff, !bool_decide_eq_true. split.
  - intros [Hid Hc]. exists x, y. by rewrite Hid, Hc.
  - intros (x' & y' & [= <-] & [= <-] & [= Hid Hc]). done.
Qed.

Lemma options_loop_spec (a b : list OptionStat.t) :
  length a = length b →
  forallb (λ i, negb (optionDiffers a b i)) (seq 0 (length a)) = true
  ↔ statKey <$> a = statKey <$> b.
Proof.
  intros Hlen. rewrite forallb_forall. split.
  - intros Hall. apply list_eq. intros i. rewrite !list_lookup_fmap.
    destruct (decide (i < length a)%nat) as [Hi|Hi].
    + specialize (Hall i ltac:(apply in_seq; lia)).
      apply negb_true_iff, optionDiffers_false in Hall as (x & y & -> & -> & Hk).
      simpl. by rewrite Hk.
    + rewrite !lookup_ge_None_2 by lia. done.
  - intros Heq i [_ Hi]%in_seq. simpl in Hi.
    apply negb_true_iff, optionDiffers_false.
    destruct (lookup_lt_is_Some_2 a i Hi) as [x Hx].
    destruct (lookup_lt_is_Some_2 b i ltac:(lia)) as [y Hy].
    exists x, y. split; [done|]. split; [done|].
    assert ((statKey <$> a) !! i = (statKey <$> b) !! i) as Hk by by rewrite Heq.
    rewrite !list_lookup_fmap, Hx, Hy in Hk. simpl in Hk. congruence.
Qed.

Lemma areStatsEqual_iff (a b : VoteStats.t) :
  areStatsEqual a b = true ↔
  VoteStats.totalVotes a = VoteStats.totalVotes b
  ∧ statKey <$> VoteStats.options a = statKey <$> VoteStats.options b.
Proof.
  unfold areStatsEqual.
  case_bool_decide as Ht; simpl; [|split; [done|by intros [? _]]].
  case_bool_decide as Hl; simpl.
  - rewrite options_loop_spec by done. tauto.
  - split; [done|]. intros [_ Hk]. exfalso. apply Hl.
    by rewrite <- (length_fmap statKey), Hk, length_fmap.
Qed.

Lemma areStatsEqual_refl a : areStatsEqual a a = true.
Proof. by apply areStatsEqual_iff. Qed.

(** [areStatsEqual] holds exactly when the totals agree and the entries
    carry, position by position, the same option ids and counts; labels and
    percentages play no part.  It is an equivalence. *)
Theorem areStatsEqual_compares_ids_and_counts (a b c : VoteStats.t) :
  (areStatsEqual a b = true ↔
   VoteStats.totalVotes a = VoteStats.totalVotes b
   ∧ statKey <$> VoteStats.options a = statKey <$> VoteStats.options b)
  ∧ areStatsEqual a a = true
  ∧ areStatsEqual a b = areStatsEqual b a
  ∧ (areStatsEqual a b = true → areStatsEqual b c = true → areStatsEqual a c = true).
Proof.
  split; [apply areStatsEqual_iff|]. split; [apply areStatsEqual_refl|]. split.
  - apply eq_true_iff_eq. rewrite !areStatsEqual_iff. split; intros [-> ->]; done.
  - rewrite !areStatsEqual_iff. intros [-> ->] [-> ->]. done.
Qed.

(** For the stats of two vote lists over the same non-empty option list,
    [areStatsEqual] holds exactly when the lists have the same length and
    give every option the same number of votes. *)
Theorem areStatsEqual_calculateStats (vs vs' : list Vote.t) (os : list Option.t) :
  os ≠ [] →
  areStatsEqual (calculateStats vs os) (calculateStats vs' os) = true
  ↔ length vs = length vs'
    ∧ Forall (λ o, votesFor (Option.id o) vs = votesFor (Option.id o) vs') os.
Proof.
  intros Hos. rewrite areStatsEqual_iff, !calculateStats_options by done.
  cbn [VoteStats.totalVotes VoteStats.options]. rewrite <- !list_fmap_compose.
  split; intros [Hlen Hk]; (split; [done|]).
  - apply Forall_forall. intros o Ho.
    apply list_elem_of_lookup in Ho as [i Hi].
    assert (((statKey ∘ statOfOption vs) <$> os) !! i
            = ((statKey ∘ statOfOption vs') <$> os) !! i) as Heq by by rewrite Hk.
    rewrite !list_lookup_fmap, Hi in Heq. simpl in Heq. unfold statKey in Heq.
    simpl in Heq. congruence.
  - apply list_fmap_ext. intros i o Hi. unfold statKey, statOfOption. simpl.
    rewrite Forall_forall in Hk. rewrite (Hk o); [done|]. by eapply list_elem_of_lookup_2.
Qed.

Lemma areStatsEqual_calculateStats_witness :
  areStatsEqual
    (calculateStats [vote_for "opt1"; vote_for "opt2"]
                    [option_named "opt1" "A"; option_named "opt2" "B"])
    (calculateStats [vote_for "opt2"; vote_for "opt1"]
                    [option_named "opt1" "A"; option_named "opt2" "B"]) = true.
Proof.
  apply (areStatsEqual_calculateStats
           [vote_for "opt1"; vote_for "opt2"] [vote_for "opt2"; vote_for "opt1"]
           [option_named "opt1" "A"; option_named "opt2" "B"]); [discriminate|].
  split; [reflexivity|]. repeat constructor.
Defined.

(** [getOptionColor] always yields a colour: the custom one when it is a
    non-empty string, otherwise one of the six defaults, chosen by the index
    modulo 6 (an empty custom colour counts as none). *)
Theorem getOptionColor_total (index : nat) (customColor : option string) :
  (∀ c, customColor = Some c → c ≠ "" → getOptionColor index customColor = Some c)
  ∧ (jsFalsy customColor = true →
     ∃ c, getOptionColor index customColor = Some c
          ∧ c ∈ DEFAULT_COLORS
          ∧ DEFAULT_COLORS !! (index mod 6) = Some c)
  ∧ (∃ c, getOptionColor index customColor = Some c ∧ c ≠ "")
  ∧ getOptionColor (index + 6) customColor = getOptionColor index customColor.
Proof.
  assert (∃ c, DEFAULT_COLORS !! (index mod 6) = Some c ∧ c ≠ "") as (d & Hd & Hne).
  { pose proof (Nat.mod_upper_bound index 6 ltac:(lia)) as Hlt.
    destruct (index mod 6) as [|[|[|[|[|[|n]]]]]]; try lia; eexists; split;
      try reflexivity; discriminate. }
  split; [|split; [|split]].
  - intros c -> Hc. unfold getOptionColor. by rewrite jsFalsy_Some.
  - intros Hf. unfold getOptionColor. rewrite Hf. exists d. split; [done|].
    split; [by eapply list_elem_of_lookup_2|done].
  - unfold getOptionColor. destruct (jsFalsy customColor) eqn:Hf.
    + by exists d.
    + apply jsFalsy_false in Hf as (c & -> & Hc). by exists c.
  - unfold getOptionColor. destruct (jsFalsy customColor); [|done].
    change (length DEFAULT_COLORS) with 6.
    replace (index + 6) with (index + 1 * 6) by lia. by rewrite Nat.Div0.mod_add.
Qed.

Lemma getOptionColor_total_witness :
  getOptionColor 7 (Some "#123456") = Some "#123456"
  ∧ ∃ c, getOptionColor 7 (Some "") = Some c ∧ c ∈ DEFAULT_COLORS
         ∧ DEFAULT_COLORS !! (7 mod 6) = Some c.
Proof.
  destruct (getOptionColor_total 7 (Some "#123456")) as (Hcustom & _).
  destruct (getOptionColor_total 7 (Some "")) as (_ & Hdefault & _).
  split; [apply Hcustom; [reflexivity|discriminate]|apply Hdefault; reflexivity].
Defined.

Lemma carouselTick_questions d :
  DisplayScreenState.questions (state (carouselTick d))
  = DisplayScreenState.questions (state d).
Proof. done. Qed.

Lemma carouselTick_iter k d :
  DisplayScreenState.questions (state d) ≠ [] →
  DisplayScreenState.questions (state (Nat.iter (S k) carouselTick d))
  = DisplayScreenState.questions (state d)
  ∧ DisplayScreenState.currentCarouselIndex (state (Nat.iter (S k) carouselTick d))
    = (DisplayScreenState.currentCarouselIndex (state d) + S k)
      mod length (DisplayScreenState.questions (state d)).
Proof.
  intros Hne. induction k as [|k [IHq IHi]].
  - simpl. split; [done|]. done.
  - change (Nat.iter (S (S k)) carouselTick d)
      with (carouselTick (Nat.iter (S k) carouselTick d)).
    rewrite carouselTick_questions. split; [done|].
    unfold carouselTick at 1. cbn [state DisplayScreenState.currentCarouselIndex].
    rewrite IHq, IHi. rewrite Nat.Div0.add_mod_idemp_l. f_equal. lia.
Qed.

(** The carousel, while the event has questions: after [k >= 1] ticks from
    index [i] over [n] questions the index is [(i + k) mod n], so it stays
    in range, a current question exists, and [n] ticks lead back to where
    an in-range index started; each tick empties the stats on display and
    both animation references. *)
Theorem carousel_cycles (d : Display) (k : nat) :
  DisplayScreenState.questions (state d) ≠ [] →
  DisplayScreenState.currentCarouselIndex (state (Nat.iter (S k) carouselTick d))
  = (DisplayScreenState.currentCarouselIndex (state d) + S k)
    mod length (DisplayScreenState.questions (state d))
  ∧ is_Some (currentQuestion (Nat.iter (S k) carouselTick d))
  ∧ (DisplayScreenState.currentCarouselIndex (state d)
     < length (DisplayScreenState.questions (state d)) →
     DisplayScreenState.currentCarouselIndex
       (state (Nat.iter (length (DisplayScreenState.questions (state d))) carouselTick d))
     = DisplayScreenState.currentCarouselIndex (state d))%nat
  ∧ DisplayScreenState.voteStats (state (Nat.iter (S k) carouselTick d)) = noStats
  ∧ prevStatsRef (Nat.iter (S k) carouselTick d) = noStats
  ∧ targetStatsRef (Nat.iter (S k) carouselTick d) = noStats.
Proof.
  intros Hne. destruct (carouselTick_iter k d Hne) as [Hq Hi].
  assert (length (DisplayScreenState.questions (state d)) ≠ 0) as Hn.
  { by destruct (DisplayScreenState.questions (state d)). }
  split; [done|]. split; [|split; [|done]].
  - unfold currentQuestion. rewrite Hq, Hi. apply lookup_lt_is_Some_2.
    by apply Nat.mod_upper_bound.
  - intros Hlt.
    destruct (length (DisplayScreenState.questions (state d))) as [|n] eqn:Hlen; [done|].
    destruct (carouselTick_iter n d Hne) as [_ ->]. rewrite Hlen.
    replace (DisplayScreenState.currentCarouselIndex (state d) + S n)
      with (DisplayScreenState.currentCarouselIndex (state d) + 1 * S n) by lia.
    rewrite Nat.Div0.mod_add. by apply Nat.mod_small.
Qed.

Lemma carousel_cycles_witness :
  DisplayScreenState.currentCarouselIndex (state (Nat.iter 2 carouselTick demo_display)) = 1
  ∧ DisplayScreenState.currentCarouselIndex (state (Nat.iter 3 carouselTick demo_display)) = 2.
Proof.
  destruct (carousel_cycles demo_display 1 ltac:(discriminate)) as (Hi & _ & Hback & _).
  split; [rewrite Hi; reflexivity|]. apply Hback. simpl. lia.
Defined.

(** The comparison at the head of [animateToStats] after a reset.  A
    carousel tick and a manual selection leave zero stats in the target
    reference, and the stats of a delivery compare equal to those only when
    there is no vote and the question has no options: for a question with
    options the first delivery after either differs from the target.  For
    such a question the stats of the same votes in another order compare
    equal. *)
Theorem display_reset_target (index : nat) (d : Display) (vs vs' : list Vote.t)
    (os : list Option.t) :
  (areStatsEqual (targetStatsRef (carouselTick d)) (calculateStats vs os) = true
   ↔ vs = [] ∧ os = [])
  ∧ (areStatsEqual (targetStatsRef (handleIndicatorClick index d)) (calculateStats vs os)
     = true
     ↔ vs = [] ∧ os = [])
  ∧ (os ≠ [] → vs ≡ₚ vs' →
     areStatsEqual (calculateStats vs os) (calculateStats vs' os) = true).
Proof.
  assert (areStatsEqual noStats (calculateStats vs os) = true ↔ vs = [] ∧ os = [])
    as Hzero.
  { rewrite areStatsEqual_iff. split.
    - intros [Ht Hk]. destruct os as [|o os].
      + rewrite calculateStats_no_options in Ht. cbn in Ht.
        by destruct vs.
      + rewrite calculateStats_options in Hk by done. done.
    - by intros [-> ->]. }
  split; [exact Hzero|]. split; [exact Hzero|].
  intros Hos Hperm. rewrite (calculateStats_vote_order_aux vs vs' os Hos Hperm).
  apply areStatsEqual_refl.
Qed.

(** After a tick of the sample display a single vote differs from the
    target. *)
Example display_reset_target_demo :
  areStatsEqual (targetStatsRef (carouselTick demo_display))
    (calculateStats [vote_for "opt1"] (Question.options demo_question)) = false.
Proof. reflexivity. Qed.

(* ===================================================================== *)
(** * Properties of the voting page *)
(* ===================================================================== *)

Lemma device_key_not_status q : getStorageKey q ≠ "device_id".
Proof. unfold getStorageKey, VOTE_STATUS_PREFIX. simpl. discriminate. Qed.

(** [getDeviceId] on an available storage: it returns a non-empty id; a
    stored non-empty id is returned as it is and nothing is written;
    otherwise the id is made from the clock and the random suffix and
    stored; every later call returns the id of the first one, whatever the
    clock and the generator give, and writes nothing. *)
Theorem getDeviceId_stable (env env' : Env) (ls : Storage) :
  available ls = true →
  ∃ deviceId ls',
    getDeviceId env ls = Return (deviceId, ls')
    ∧ deviceId ≠ ""
    ∧ items ls' !! "device_id" = Some deviceId
    ∧ (∀ stored, items ls !! "device_id" = Some stored → stored ≠ "" →
         deviceId = stored ∧ ls' = ls)
    ∧ (jsFalsy (items ls !! "device_id") = true →
         deviceId = "device_" ++ dateNow env ++ "_" ++ randomSuffix env
         ∧ items ls' = <["device_id" := deviceId]> (items ls))
    ∧ getDeviceId env' ls' = Return (deviceId, ls').
Proof.
  intros Ha. unfold getDeviceId, getItem, setItem. rewrite Ha. cbv zeta.
  destruct (jsFalsy (items ls !! "device_id")) eqn:Hf.
  - eexists _, _. split; [done|]. split; [discriminate|]. cbn [items available].
    rewrite lookup_insert_eq. split; [done|]. split.
    + intros stored Hs Hne. rewrite Hs in Hf. by rewrite jsFalsy_Some in Hf.
    + split; [done|]. by rewrite jsFalsy_Some by discriminate.
  - apply jsFalsy_false in Hf as (stored & Hs & Hne). rewrite Hs. cbn [str default from_option id].
    exists stored, ls. split; [done|]. split; [done|]. split; [done|]. split.
    + intros stored' [= <-] _. done.
    + split; [done|]. rewrite Ha, Hs. by rewrite jsFalsy_Some.
Qed.

Lemma getDeviceId_stable_witness :
  ∃ deviceId ls',
    getDeviceId (env_at "1700000000000" "abc123xyz" "") emptyStorage
      = Return (deviceId, ls')
    ∧ deviceId = "device_1700000000000_abc123xyz"
    ∧ getDeviceId (env_at "1700000099999" "zzz999zzz" "") ls' = Return (deviceId, ls').
Proof.
  destruct (getDeviceId_stable (env_at "1700000000000" "abc123xyz" "")
              (env_at "1700000099999" "zzz999zzz" "") emptyStorage eq_refl)
    as (deviceId & ls' & Hget & _ & _ & _ & Hnew & Hagain).
  exists deviceId, ls'. split; [exact Hget|]. split; [|exact Hagain].
  exact (proj1 (Hnew eq_refl)).
Defined.

(** On an unavailable storage [getDeviceId] throws; the guard functions do
    not: [checkVoteStatus] and [markAsVoted] answer [false] and nothing is
    written. *)
Theorem storage_unavailable (env : Env) (q : string) (ls : Storage) :
  available ls = false →
  getDeviceId env ls = Throw
  ∧ checkVoteStatus q ls = false
  ∧ markAsVoted q ls = (false, ls)
  ∧ clearVoteStatus q ls = ls.
Proof.
  intros Ha. unfold getDeviceId, checkVoteStatus, markAsVoted, clearVoteStatus,
    getItem, setItem, removeItem. rewrite Ha. by destruct (falsy q).
Qed.

Lemma storage_unavailable_witness :
  getDeviceId (env_at "1" "a" "") {| items := ∅; available := false |} = Throw
  ∧ markAsVoted "q1" {| items := ∅; available := false |}
    = (false, {| items := ∅; available := false |}).
Proof.
  destruct (storage_unavailable (env_at "1" "a" "") "q1"
              {| items := ∅; available := false |} eq_refl) as (Hd & _ & Hm & _).
  split; [exact Hd|exact Hm].
Defined.

Lemma guardStep_frame (k : string) c ls :
  (∀ q, k ≠ getStorageKey q) →
  items (guardStep ls c) !! k = items ls !! k
  ∧ available (guardStep ls c) = available ls.
Proof.
  intros Hk. destruct c as [q|q|q]; simpl; [done| |].
  - rewrite markAsVoted_items, markAsVoted_available. split; [|done].
    destruct (falsy q), (available ls); try done. by rewrite lookup_insert_ne.
  - rewrite clearVoteStatus_items, clearVoteStatus_available. split; [|done].
    destruct (falsy q), (available ls); try done. by rewrite lookup_delete_ne.
Qed.

(** The guard and the device id share [localStorage] without touching each
    other: no sequence of guard calls changes what [getDeviceId] returns,
    and creating the device id changes no vote status. *)
Theorem guard_and_deviceId_independent (env : Env) (calls : list GuardCall)
    (q : string) (ls : Storage) :
  (∀ deviceId ls', getDeviceId env ls = Return (deviceId, ls') →
     ∃ ls'', getDeviceId env (guardRun calls ls) = Return (deviceId, ls''))
  ∧ (∀ deviceId ls', getDeviceId env ls = Return (deviceId, ls') →
       checkVoteStatus q ls' = checkVoteStatus q ls).
Proof.
  assert (items (guardRun calls ls) !! "device_id" = items ls !! "device_id"
          ∧ available (guardRun calls ls) = available ls) as [Hk Ha].
  { revert ls. induction calls as [|c calls IH]; intros ls; [done|]. simpl.
    destruct (IH (guardStep ls c)) as [-> ->].
    apply guardStep_frame. intros q' Heq. by apply (device_key_not_status q'). }
  split.
  - intros deviceId ls'. unfold getDeviceId, getItem, setItem. rewrite Ha, Hk. cbv zeta.
    destruct (available ls); [|done].
    destruct (jsFalsy (items ls !! "device_id")); intros [= <- <-]; by eexists.
  - intros deviceId ls'. unfold getDeviceId, getItem, setItem. cbv zeta.
    destruct (available ls) eqn:Hav; [|done].
    destruct (jsFalsy (items ls !! "device_id")); intros [= <- <-]; [|done].
    apply checkVoteStatus_ext; [done|]. simpl. apply lookup_insert_ne.
    intros Heq. by apply (device_key_not_status q).
Qed.

(* ===================================================================== *)
(** * Further properties of the backend *)
(* ===================================================================== *)

(** A complete request either appends a record, no stored one having its
    pair, or rewrites the first stored record with its pair. *)
Lemma postVotes_complete env body fs :
  missingField body = false →
  (Forall (λ v, voterKey v ≠ (str (body_questionId body), str (body_deviceId body)))
     (votes (readVotesData fs))
   ∧ ∃ vote,
       postVotes env body fs
       = ({| status := 201; json := VoteJson vote false |},
          writeVotesData {| votes := (votes (readVotesData fs) ++ [vote])%list |} fs)
       ∧ Vote.questionId vote = str (body_questionId body)
       ∧ Vote.optionId vote = str (body_optionId body)
       ∧ Vote.deviceId vote = str (body_deviceId body)
       ∧ Vote.timestamp vote = isoString env)
  ∨ (∃ i existing,
       votes (readVotesData fs) !! i = Some existing
       ∧ voterKey existing = (str (body_questionId body), str (body_deviceId body))
       ∧ postVotes env body fs
         = ({| status := 200;
               json := VoteJson (revote (str (body_optionId body)) (isoString env) existing)
                         true |},
            writeVotesData
              {| votes := <[i := revote (str (body_optionId body)) (isoString env) existing]>
                            (votes (readVotesData fs)) |} fs)).
Proof.
  unfold missingField. intros Hmiss.
  apply orb_false_iff in Hmiss as [[Hq Ho]%orb_false_iff Hd].
  destruct body as [fq fo fd]; simpl in *.
  apply jsFalsy_false in Hq as (q & -> & Hq).
  apply jsFalsy_false in Ho as (o & -> & Ho).
  apply jsFalsy_false in Hd as (d & -> & Hd).
  cbn [str default from_option id].
  destruct (decide (findIndex (sameVoter q d) (votes (readVotesData fs)) = (-1)%Z))
    as [Hnone|Hfound].
  - left. apply findIndex_none in Hnone.
    assert (Forall (λ v, voterKey v ≠ (q, d)) (votes (readVotesData fs))) as Hnew.
    { eapply Forall_impl; [exact Hnone|]. intros v Hv Hk%sameVoter_true. congruence. }
    split; [done|]. rewrite postVotes_create by done. cbv zeta. by eexists.
  - right. destruct (findIndex_found _ _ Hfound) as (x & Hx & Hpx%sameVoter_true & _).
    exists (Z.to_nat (findIndex (sameVoter q d) (votes (readVotesData fs)))), x.
    split; [done|]. split; [done|]. unfold postVotes.
    cbn [body_questionId body_optionId body_deviceId str default from_option id].
    rewrite !jsFalsy_Some by done. cbn [orb]. cbv zeta.
    rewrite bool_decide_true by done. by rewrite Hx.
Qed.

(** [POST /api/votes] answers 400, 200 or 201 and nothing else: 400 exactly
    for a request with a missing or empty field, which changes no file; 200
    exactly for a complete request whose (questionId, deviceId) pair is
    stored, which keeps the number of records; 201 exactly for a complete
    request whose pair is not stored, which adds one record at the end.  The
    events file is never written. *)
Theorem postVotes_answers (env : Env) (body : VoteBody) (fs : Files) :
  (status (postVotes env body fs).1 = 400 ↔ missingField body = true)
  ∧ (status (postVotes env body fs).1 = 200 ↔
     missingField body = false
     ∧ (str (body_questionId body), str (body_deviceId body))
       ∈ voterKey <$> votes (readVotesData fs))
  ∧ (status (postVotes env body fs).1 = 201 ↔
     missingField body = false
     ∧ (str (body_questionId body), str (body_deviceId body))
       ∉ voterKey <$> votes (readVotesData fs))
  ∧ (status (postVotes env body fs).1 = 400 → (postVotes env body fs).2 = fs)
  ∧ (status (postVotes env body fs).1 = 200 →
     length (votes (readVotesData (postVotes env body fs).2))
     = length (votes (readVotesData fs)))
  ∧ (status (postVotes env body fs).1 = 201 →
     ∃ vote, votes (readVotesData (postVotes env body fs).2)
             = (votes (readVotesData fs) ++ [vote])%list)
  ∧ EVENTS_FILE (postVotes env body fs).2 = EVENTS_FILE fs.
Proof.
  destruct (missingField body) eqn:Hmiss.
  - rewrite postVotes_missing by done. simpl.
    repeat split; try done; try lia; by intros [? _].
  - destruct (postVotes_complete env body fs Hmiss)
      as [(Hnew & vote & -> & _)|(i & existing & Hi & Hk & ->)]; simpl.
    + assert ((str (body_questionId body), str (body_deviceId body))
              ∉ voterKey <$> votes (readVotesData fs)) as Hout.
      { intros (v & Hv & Hin)%list_elem_of_fmap.
        rewrite Forall_forall in Hnew. by apply (Hnew v). }
      repeat split; try done; try lia.
      * by intros [_ ?].
      * intros _. by exists vote.
    + assert ((str (body_questionId body), str (body_deviceId body))
              ∈ voterKey <$> votes (readVotesData fs)) as Hin.
      { apply list_elem_of_fmap. exists existing. split; [done|].
        by eapply list_elem_of_lookup_2. }
      repeat split; try done; try lia.
      * by intros [_ ?].
      * intros _. by rewrite length_insert.
Qed.

(** A vote request touches one record at most: every stored record of
    another (questionId, deviceId) pair stays where it is, unchanged, and
    the stored records keep their ids, questions and devices in order. *)
Theorem postVotes_frame (env : Env) (body : VoteBody) (fs : Files) :
  (∀ i v, votes (readVotesData fs) !! i = Some v →
     voterKey v ≠ (str (body_questionId body), str (body_deviceId body)) →
     votes (readVotesData (postVotes env body fs).2) !! i = Some v)
  ∧ (λ v, (Vote.id v, voterKey v))
      <$> take (length (votes (readVotesData fs)))
               (votes (readVotesData (postVotes env body fs).2))
    = (λ v, (Vote.id v, voterKey v)) <$> votes (readVotesData fs).
Proof.
  destruct (missingField body) eqn:Hmiss.
  - rewrite postVotes_missing by done. simpl. split; [done|]. by rewrite firstn_all.
  - destruct (postVotes_complete env body fs Hmiss)
      as [(Hnew & vote & -> & _)|(i & existing & Hi & Hk & ->)]; simpl.
    + split.
      * intros j v Hj _. by apply lookup_app_l_Some.
      * by rewrite take_app_length.
    + split.
      * intros j v Hj Hne. rewrite list_lookup_insert_ne; [done|].
        intros <-. rewrite Hi in Hj. injection Hj as <-. done.
      * rewrite <- (length_insert (votes (readVotesData fs)) i
                      (revote (str (body_optionId body)) (isoString env) existing)).
        rewrite firstn_all, list_fmap_insert. apply list_insert_id.
        by rewrite list_lookup_fmap, Hi.
Qed.

Lemma filter_absent_key {A B} `{EqDecision B} (f : A → B) (l : list A) (k : B) :
  k ∉ f <$> l → filter (λ y, f y = k) l = [].
Proof.
  induction l as [|z l IH]; [done|]. csimpl. intros [Hz Hl]%not_elem_of_cons.
  rewrite filter_cons_False by congruence. by apply IH.
Qed.

Lemma filter_unique_key {A B} `{EqDecision B} (f : A → B) (l : list A) i x :
  NoDup (f <$> l) → l !! i = Some x → filter (λ y, f y = f x) l = [x].
Proof.
  revert i. induction l as [|y l IH]; intros i Hnd Hi; [done|].
  csimpl in Hnd. apply NoDup_cons in Hnd as [Hy Hnd].
  destruct i as [|i]; simpl in Hi.
  - injection Hi as ->. rewrite filter_cons_True by done. f_equal.
    by apply filter_absent_key.
  - rewrite filter_cons_False; [by apply (IH i)|].
    intros Heq. apply Hy. rewrite Heq. apply list_elem_of_fmap. exists x.
    split; [done|]. by eapply list_elem_of_lookup_2.
Qed.

Lemma elem_of_filter_unique {A B} `{EqDecision B} (f : A → B) (l : list A) x :
  NoDup (f <$> l) → x ∈ l → filter (λ y, f y = f x) l = [x].
Proof. intros Hnd [i Hi]%list_elem_of_lookup. by eapply filter_unique_key. Qed.

(** Round trip: after a complete vote request on a store with at most one
    vote per pair, the store holds exactly one record of that question and
    device; it names the requested option and carries the time of the
    request, it is the record the answer shows, and both
    [GET /questions/{questionId}/votes] and [GET /devices/{deviceId}/votes]
    return it. *)
Theorem postVotes_then_get (env : Env) (q o d : string) (fs : Files) :
  q ≠ "" → o ≠ "" → d ≠ "" →
  oneVotePerVoter fs →
  ∃ (vote : Vote.t) (updated : bool),
    (postVotes env (mkVoteBody (Some q) (Some o) (Some d)) fs).1
    = {| status := if updated then 200 else 201; json := VoteJson vote updated |}
    ∧ filter (λ v, voterKey v = (q, d))
        (votes (readVotesData (postVotes env (mkVoteBody (Some q) (Some o) (Some d)) fs).2))
      = [vote]
    ∧ Vote.optionId vote = o
    ∧ Vote.timestamp vote = isoString env
    ∧ vote ∈ getVotes q (postVotes env (mkVoteBody (Some q) (Some o) (Some d)) fs).2
    ∧ vote ∈ getDeviceVotes d (postVotes env (mkVoteBody (Some q) (Some o) (Some d)) fs).2.
Proof.
  intros Hq Ho Hd Hinv.
  pose proof (postVotes_invariant env (mkVoteBody (Some q) (Some o) (Some d)) fs Hinv)
    as Hinv'.
  assert (missingField (mkVoteBody (Some q) (Some o) (Some d)) = false) as Hmiss.
  { unfold missingField. cbn [body_questionId body_optionId body_deviceId].
    by rewrite !jsFalsy_Some. }
  assert (∀ vote fs', vote ∈ votes (readVotesData fs') → voterKey vote = (q, d) →
            oneVotePerVoter fs' →
            filter (λ v, voterKey v = (q, d)) (votes (readVotesData fs')) = [vote]
            ∧ vote ∈ getVotes q fs' ∧ vote ∈ getDeviceVotes d fs') as Hgot.
  { intros vote fs' Hin Hk Hnd. split; [|split].
    - rewrite <- Hk. by apply elem_of_filter_unique.
    - unfold getVotes. apply list_elem_of_filter. split; [|done]. by injection Hk.
    - unfold getDeviceVotes. apply list_elem_of_filter. split; [|done]. by injection Hk. }
  destruct (postVotes_complete env _ fs Hmiss)
    as [(Hnew & vote & Heq & Hvq & Hvo & Hvd & Hvt)|(i & existing & Hi & Hk & Heq)];
    rewrite Heq in Hinv' |- *; simpl in *.
  - exists vote, false. split; [done|].
    destruct (Hgot vote (writeVotesData
                {| votes := (votes (readVotesData fs) ++ [vote])%list |} fs))
      as (Hf & Hg & Hdv); [| |done|done].
    + simpl. apply elem_of_app. right. by left.
    + unfold voterKey. by rewrite Hvq, Hvd.
  - exists (revote o (isoString env) existing), true. split; [done|].
    destruct (Hgot (revote o (isoString env) existing)
                (writeVotesData
                   {| votes := <[i := revote o (isoString env) existing]>
                                 (votes (readVotesData fs)) |} fs))
      as (Hf & Hg & Hdv); [| |done|done].
    + simpl. eapply list_elem_of_lookup_2. apply list_lookup_insert_eq.
      by eapply lookup_lt_Some.
    + by rewrite voterKey_revote.
Qed.

Lemma postVotes_then_get_witness :
  ∃ (vote : Vote.t) (updated : bool),
    (postVotes (env_at "1700000001000" "ghi789rst" "2023-11-14T22:13:21.000Z")
       (mkVoteBody (Some "q1") (Some "opt2") (Some "d1")) demo_files).1
    = {| status := if updated then 200 else 201; json := VoteJson vote updated |}
    ∧ Vote.optionId vote = "opt2"
    ∧ vote ∈ getVotes "q1"
        (postVotes (env_at "1700000001000" "ghi789rst" "2023-11-14T22:13:21.000Z")
           (mkVoteBody (Some "q1") (Some "opt2") (Some "d1")) demo_files).2.
Proof.
  destruct (postVotes_then_get
              (env_at "1700000001000" "ghi789rst" "2023-11-14T22:13:21.000Z")
              "q1" "opt2" "d1" demo_files
              ltac:(discriminate) ltac:(discriminate) ltac:(discriminate)
              ltac:(unfold oneVotePerVoter; simpl; compute_done))
    as (vote & updated & Hans & _ & Ho & _ & Hget & _).
  exists vote, updated. split; [exact Hans|]. split; [exact Ho|exact Hget].
Defined.

Lemma NoDup_voterKey_filter (P : Vote.t → Prop) `{∀ v, Decision (P v)} (l : list Vote.t) :
  NoDup (voterKey <$> l) → NoDup (voterKey <$> filter P l).
Proof.
  intros Hnd. eapply sublist_NoDup; [exact Hnd|].
  apply fmap_sublist, sublist_filter.
Qed.

Lemma deleteVotes_votes q fs :
  votes (readVotesData (deleteVotes q fs).2)
  = filter (λ v, Vote.questionId v ≠ q) (votes (readVotesData fs)).
Proof. unfold readVotesData at 1. by rewrite deleteVotes_votes_file. Qed.

(** Clearing a question keeps a store with at most one vote per pair in
    that state, clearing it again removes nothing more, and afterwards the
    first vote of any device on that question is a new record (201), the
    only one [GET /questions/{questionId}/votes] returns. *)
Theorem deleteVotes_then_vote (q : string) (fs : Files) :
  (oneVotePerVoter fs → oneVotePerVoter (deleteVotes q fs).2)
  ∧ votes (readVotesData (deleteVotes q (deleteVotes q fs).2).2)
    = votes (readVotesData (deleteVotes q fs).2)
  ∧ (∀ env o d, q ≠ "" → o ≠ "" → d ≠ "" →
       ∃ vote,
         (postVotes env (mkVoteBody (Some q) (Some o) (Some d)) (deleteVotes q fs).2).1
         = {| status := 201; json := VoteJson vote false |}
         ∧ Vote.optionId vote = o
         ∧ getVotes q
             (postVotes env (mkVoteBody (Some q) (Some o) (Some d)) (deleteVotes q fs).2).2
           = [vote]).
Proof.
  split; [|split].
  - unfold oneVotePerVoter. rewrite deleteVotes_votes. apply NoDup_voterKey_filter.
  - rewrite !deleteVotes_votes. rewrite list_filter_filter.
    apply list_filter_iff. tauto.
  - intros env o d Hq Ho Hd.
    assert (Forall (λ v, voterKey v ≠ (q, d))
              (votes (readVotesData (deleteVotes q fs).2))) as Hnew.
    { rewrite deleteVotes_votes. apply Forall_forall.
      intros v [Hv _]%list_elem_of_filter [= Hvq _]. done. }
    rewrite postVotes_create by done. cbv zeta. eexists. split; [done|]. split; [done|].
    unfold getVotes. cbn [snd writeVotesData readVotesData VOTES_FILE votes].
    fold (readVotesData (deleteVotes q fs).2).
    rewrite filter_app, deleteVotes_votes.
    rewrite filter_cons_True by done. rewrite filter_nil.
    assert (filter (λ v, Vote.questionId v = q)
              (filter (λ v, Vote.questionId v ≠ q) (votes (readVotesData fs))) = [])
      as ->; [|done].
    rewrite list_filter_filter.
    induction (votes (readVotesData fs)) as [|v l IH]; [done|].
    rewrite filter_cons_False by tauto. done.
Qed.

Lemma putCurrentQuestion_cases eventId q event fs :
  q ≠ "" →
  events (readEventsData fs) !! eventId = Some event →
  putCurrentQuestion eventId (Some q) fs
  = ({| status := 200; json := SuccessJson |},
     writeEventsData
       {| events := <[eventId := setCurrentQuestionId (Some q) event]>
                      (events (readEventsData fs));
          questions := questions (readEventsData fs) |} fs).
Proof.
  intros Hq He. unfold putCurrentQuestion, jsLookup.
  rewrite jsFalsy_Some by done. by rewrite He.
Qed.

(** [PUT current-question] on a stored event: the last write wins (writing
    [q1] and then [q2] leaves the files as writing [q2] alone does), [GET
    /events/{eventId}] then shows [q2] with the rest of the event as it
    was, and the votes file, the questions and the other events are not
    touched. *)
Theorem putCurrentQuestion_last_write (eventId q1 q2 : string) (event : Event.t)
    (fs : Files) :
  q1 ≠ "" → q2 ≠ "" →
  events (readEventsData fs) !! eventId = Some event →
  (putCurrentQuestion eventId (Some q2) (putCurrentQuestion eventId (Some q1) fs).2).2
  = (putCurrentQuestion eventId (Some q2) fs).2
  ∧ getEvent eventId (putCurrentQuestion eventId (Some q2) fs).2
    = inr (setCurrentQuestionId (Some q2) event)
  ∧ VOTES_FILE (putCurrentQuestion eventId (Some q2) fs).2 = VOTES_FILE fs
  ∧ questions (readEventsData (putCurrentQuestion eventId (Some q2) fs).2)
    = questions (readEventsData fs)
  ∧ (∀ e, e ≠ eventId →
       getEvent e (putCurrentQuestion eventId (Some q2) fs).2 = getEvent e fs).
Proof.
  intros H1 H2 He.
  pose proof (putCurrentQuestion_cases eventId q1 event fs H1 He) as E1.
  pose proof (putCurrentQuestion_cases eventId q2 event fs H2 He) as E2.
  rewrite E2. simpl.
  split; [|split; [|split; [done|split; [done|]]]].
  - rewrite E1. simpl.
    rewrite (putCurrentQuestion_cases eventId q2 (setCurrentQuestionId (Some q1) event))
      by (by simpl; rewrite ?lookup_insert_eq). simpl. unfold writeEventsData. simpl. by rewrite insert_insert_eq.
  - unfold getEvent, jsLookup. simpl. by rewrite lookup_insert_eq.
  - intros e Hne. unfold getEvent, jsLookup. simpl. by rewrite lookup_insert_ne.
Qed.

Lemma putCurrentQuestion_last_write_witness :
  getEvent "demo" (putCurrentQuestion "demo" (Some "q2") demo_files).2
  = inr (setCurrentQuestionId (Some "q2") demo_event)
  ∧ (putCurrentQuestion "demo" (Some "q2")
       (putCurrentQuestion "demo" (Some "q9") demo_files).2).2
    = (putCurrentQuestion "demo" (Some "q2") demo_files).2.
Proof.
  destruct (putCurrentQuestion_last_write "demo" "q9" "q2" demo_event demo_files
              ltac:(discriminate) ltac:(discriminate) eq_refl) as (Hlast & Hget & _).
  split; [exact Hget|exact Hlast].
Defined.

(** The clear notification on the backend.  For an event id that is not
    stored and under which the events object inherits nothing, the
    acknowledgement answers success and changes nothing, and [GET cleared]
    answers 404.  Under a name inherited from [Object.prototype] the lookup
    finds a built-in object instead: [GET cleared] answers, the
    acknowledgement writes the events file with the data it read, and [GET
    cleared] then answers null.  For a stored event the acknowledgement
    sets the flag to null and nothing else, and a second one changes
    nothing.  Clearing the votes of a question that is not stored leaves
    the events file alone when the id names nothing inherited, or when no
    event is stored under ["undefined"]; for an inherited name it arms the
    event stored under ["undefined"].  Clearing those of a stored question
    of a stored event makes [GET cleared] answer that question. *)
Theorem clearNotification_backend (eventId q : string) (fs : Files) :
  (events (readEventsData fs) !! eventId = None →
     inherited eventId (BUILTINS fs) = Nothing →
     postClearNotification eventId fs = ({| status := 200; json := SuccessJson |}, fs)
     ∧ getCleared eventId fs
       = inl {| status := 404; json := ErrorJson "Event not found" |})
  ∧ (events (readEventsData fs) !! eventId = None →
     eventId ∈ prototypeNames →
     (∃ cleared, getCleared eventId fs = inr cleared)
     ∧ (postClearNotification eventId fs).1 = {| status := 200; json := SuccessJson |}
     ∧ EVENTS_FILE (postClearNotification eventId fs).2 = Some (readEventsData fs)
     ∧ getCleared eventId (postClearNotification eventId fs).2 = inr None)
  ∧ (∀ event, events (readEventsData fs) !! eventId = Some event →
       getCleared eventId (postClearNotification eventId fs).2 = inr None
       ∧ getEvent eventId (postClearNotification eventId fs).2
         = inr (setClearedQuestionId None event)
       ∧ (postClearNotification eventId (postClearNotification eventId fs).2).2
         = (postClearNotification eventId fs).2
       ∧ VOTES_FILE (postClearNotification eventId fs).2 = VOTES_FILE fs)
  ∧ (questions (readEventsData fs) !! q = None →
     inherited q (BUILTINS fs) = Nothing ∨ events (readEventsData fs) !! "undefined" = None →
     EVENTS_FILE (deleteVotes q fs).2 = EVENTS_FILE fs)
  ∧ (∀ event,
       questions (readEventsData fs) !! q = None →
       q ∈ prototypeNames →
       events (readEventsData fs) !! "undefined" = Some event →
       getEvent "undefined" (deleteVotes q fs).2
       = inr (setClearedQuestionId (Some q) event))
  ∧ (∀ question event,
       questions (readEventsData fs) !! q = Some question →
       events (readEventsData fs) !! Question.eventId question = Some event →
       getCleared (Question.eventId question) (deleteVotes q fs).2 = inr (Some q)).
Proof.
  split; [|split; [|split; [|split; [|split]]]].
  - intros He Hin. unfold postClearNotification, getCleared, jsLookup.
    by rewrite He, Hin.
  - intros He Hin. unfold postClearNotification, getCleared, jsLookup, inherited.
    rewrite He. rewrite bool_decide_true by done. simpl.
    rewrite readEventsData_write, He. simpl.
    split; [by eexists|]. split; [done|]. split; [done|].
    unfold addedTo. by rewrite lookup_insert_eq.
  - intros event He. unfold postClearNotification, getCleared, getEvent, jsLookup.
    rewrite He. simpl.
    rewrite !lookup_insert_eq. simpl. repeat split.
    unfold writeEventsData. simpl. by rewrite insert_insert_eq.
  - intros Hq Hor. unfold deleteVotes, jsLookup. rewrite Hq. simpl.
    destruct Hor as [->|Hundefined]; [done|].
    destruct (truthy (inherited q (BUILTINS fs))); [|done].
    by rewrite Hundefined, inherited_undefined.
  - intros event Hq Hin He. unfold deleteVotes, getEvent, jsLookup, inherited.
    rewrite Hq. simpl. rewrite bool_decide_true by done. simpl. rewrite He. simpl.
    by rewrite lookup_insert_eq.
  - intros question event Hq He. unfold deleteVotes, getCleared, jsLookup.
    rewrite Hq. simpl. rewrite He. simpl.
    by rewrite lookup_insert_eq.
Qed.

Lemma clearNotification_backend_witness :
  getCleared "demo" (deleteVotes "q1" demo_files).2 = inr (Some "q1")
  ∧ getCleared "demo" (postClearNotification "demo" (deleteVotes "q1" demo_files).2).2
    = inr None
  ∧ postClearNotification "nowhere" demo_files
    = ({| status := 200; json := SuccessJson |}, demo_files).
Proof.
  destruct (clearNotification_backend "nowhere" "q1" demo_files)
    as (Hnone & _ & _ & _ & _ & Harm).
  destruct (clearNotification_backend "demo" "q1" (deleteVotes "q1" demo_files).2)
    as (_ & _ & Hack & _).
  split; [exact (Harm demo_question demo_event eq_refl eq_refl)|].
  split; [|exact (proj1 (Hnone eq_refl eq_refl))].
  exact (proj1 (Hack (setClearedQuestionId (Some "q1") demo_event) eq_refl)).
Defined.

(** [submitVote] against the backend resolves exactly when the three ids
    of the vote are non-empty strings, and the files are then those the
    handler wrote; otherwise it rejects with the backend's message and the
    files are as before. *)
Theorem submitVote_outcome (env : Env) (vote : Vote.t) (fs : Files) :
  ((submitVote env vote fs).1 = Resolved tt ↔
   Vote.questionId vote ≠ "" ∧ Vote.optionId vote ≠ "" ∧ Vote.deviceId vote ≠ "")
  ∧ ((submitVote env vote fs).1 = Resolved tt →
     (submitVote env vote fs).2
     = (postVotes env
          (mkVoteBody (Some (Vote.questionId vote)) (Some (Vote.optionId vote))
             (Some (Vote.deviceId vote))) fs).2
     ∧ (oneVotePerVoter fs → oneVotePerVoter (submitVote env vote fs).2))
  ∧ ((submitVote env vote fs).1 ≠ Resolved tt →
     (submitVote env vote fs).1 = Rejected "Missing required fields"
     ∧ (submitVote env vote fs).2 = fs).
Proof.
  unfold submitVote. cbv zeta.
  set (body := {| body_questionId := Some (Vote.questionId vote);
                  body_optionId := Some (Vote.optionId vote);
                  body_deviceId := Some (Vote.deviceId vote) |}).
  pose proof (postVotes_invariant env body fs) as Hinv.
  destruct (missingField body) eqn:Hmiss.
  - rewrite postVotes_missing by done.
    assert (¬ (Vote.questionId vote ≠ "" ∧ Vote.optionId vote ≠ ""
               ∧ Vote.deviceId vote ≠ "")) as Hsome.
    { intros (Hq & Ho & Hd). unfold missingField, body in Hmiss. simpl in Hmiss.
      apply falsy_false in Hq, Ho, Hd. by rewrite Hq, Ho, Hd in Hmiss. }
    simpl. split; [split; [done|by intros ?]|]. split; [done|]. done.
  - assert (Vote.questionId vote ≠ "" ∧ Vote.optionId vote ≠ ""
            ∧ Vote.deviceId vote ≠ "") as Hall.
    { unfold missingField, body in Hmiss. simpl in Hmiss.
      apply orb_false_iff in Hmiss as [[Hq Ho]%orb_false_iff Hd].
      by apply falsy_false in Hq, Ho, Hd. }
    destruct (postVotes_complete env body fs Hmiss)
      as [(_ & v & Heq & _)|(i & existing & _ & _ & Heq)];
      rewrite Heq in Hinv |- *; simpl; (split; [done|]); (split; [done|]); done.
Qed.

Lemma submitVote_outcome_witness :
  (submitVote (env_at "1700000000000" "abc123xyz" "2023-11-14T22:13:20.000Z")
     (Vote.mk "" "q1" "opt1" "d1" "") no_files).1 = Resolved tt
  ∧ (submitVote (env_at "1700000000000" "abc123xyz" "2023-11-14T22:13:20.000Z")
       (Vote.mk "" "q1" "" "d1" "") no_files)
    = (Rejected "Missing required fields", no_files).
Proof.
  destruct (submitVote_outcome
              (env_at "1700000000000" "abc123xyz" "2023-11-14T22:13:20.000Z")
              (Vote.mk "" "q1" "opt1" "d1" "") no_files) as (Hok & _).
  destruct (submitVote_outcome
              (env_at "1700000000000" "abc123xyz" "2023-11-14T22:13:20.000Z")
              (Vote.mk "" "q1" "" "d1" "") no_files) as (_ & _ & Hbad).
  split.
  - apply Hok. repeat split; discriminate.
  - destruct Hbad as [Hmsg Hfs]; [discriminate|].
    apply injective_projections; [exact Hmsg|exact Hfs].
Defined.

Lemma filter_fmap_comm {A B} (f : A → B) (P : B → Prop) `{∀ y, Decision (P y)}
    (l : list A) :
  filter P (f <$> l) = f <$> filter (λ x, P (f x)) l.
Proof.
  induction l as [|x l IH]; [done|]. csimpl. rewrite !filter_cons.
  case_decide; csimpl; by rewrite IH.
Qed.

(** The page's map of the device's votes: the last record of a question
    decides. *)
Lemma votesMap_from (rs : list UserVoteRecord.t) (m : JsMap string) q :
  map_get q
    (fold_left
       (λ m record,
          map_set (UserVoteRecord.questionId record) (UserVoteRecord.optionId record) m)
       rs m)
  = match last (filter (λ r, UserVoteRecord.questionId r = q) rs) with
    | Some r => Some (UserVoteRecord.optionId r)
    | None => map_get q m
    end.
Proof.
  revert m. induction rs as [|r rs IH]; intros m; [done|].
  simpl. rewrite IH. rewrite filter_cons. case_decide as Hr.
  - destruct (filter (λ r, UserVoteRecord.questionId r = q) rs) as [|r' l] eqn:Hf.
    + cbn [last]. by rewrite Hr, map_get_set_eq.
    + rewrite last_cons_cons. destruct (last (r' :: l)) eqn:Hl; [done|].
      by apply last_None in Hl.
  - destruct (last (filter (λ r, UserVoteRecord.questionId r = q) rs)); [done|].
    by rewrite map_get_set_ne.
Qed.

Lemma NoDup_questions_of_device d (l : list Vote.t) :
  NoDup (voterKey <$> l) →
  Forall (λ v, Vote.deviceId v = d) l →
  NoDup (Vote.questionId <$> l).
Proof.
  induction l as [|v l IH]; csimpl; intros Hnd Hd; [constructor|].
  apply NoDup_cons in Hnd as [Hv Hnd]. apply Forall_cons in Hd as [Hvd Hd].
  apply NoDup_cons. split; [|by apply IH].
  intros (w & Hq & Hw)%list_elem_of_fmap. apply Hv.
  apply list_elem_of_fmap. exists w. split; [|done].
  rewrite Forall_forall in Hd. unfold voterKey. by rewrite Hq, Hvd, (Hd w).
Qed.

(** Hydration of the voting page: the map built from the answer of
    [GET /devices/{deviceId}/votes] gives, for each question, the option of
    the device's last stored vote on it; on a store with at most one vote
    per pair it holds [o] for [q] exactly when the store holds a vote of
    that device on [q] for [o]. *)
Theorem votesMap_hydration (d q : string) (fs : Files) :
  map_get q (votesMap (toUserVoteRecords (getDeviceVotes d fs)))
  = Vote.optionId
    <$> last (filter (λ v, Vote.questionId v = q) (getDeviceVotes d fs))
  ∧ (oneVotePerVoter fs →
     ∀ o, map_get q (votesMap (toUserVoteRecords (getDeviceVotes d fs))) = Some o
          ↔ ∃ v, v ∈ votes (readVotesData fs)
                 ∧ Vote.questionId v = q ∧ Vote.deviceId v = d ∧ Vote.optionId v = o).
Proof.
  assert (map_get q (votesMap (toUserVoteRecords (getDeviceVotes d fs)))
          = Vote.optionId
            <$> last (filter (λ v, Vote.questionId v = q) (getDeviceVotes d fs))) as Hlast.
  { unfold votesMap. rewrite votesMap_from. unfold toUserVoteRecords.
    rewrite filter_fmap_comm, fmap_last. cbn [map_get].
    by destruct (last _). }
  split; [done|]. intros Hinv o. rewrite Hlast.
  assert (NoDup (Vote.questionId <$> getDeviceVotes d fs)) as Hnd.
  { apply (NoDup_questions_of_device d).
    - by apply NoDup_voterKey_filter.
    - apply Forall_forall. by intros v [? _]%list_elem_of_filter. }
  split.
  - intros Ho. destruct (last _) as [v|] eqn:Hv; [|done]. injection Ho as <-.
    apply last_Some_elem_of in Hv.
    apply list_elem_of_filter in Hv as [Hq Hv].
    apply list_elem_of_filter in Hv as [Hd Hv]. by exists v.
  - intros (v & Hv & <- & <- & <-).
    rewrite (elem_of_filter_unique Vote.questionId (getDeviceVotes (Vote.deviceId v) fs) v);
      [done|done|]. by apply list_elem_of_filter.
Qed.

Lemma votesMap_hydration_witness :
  map_get "q1" (votesMap (toUserVoteRecords (getDeviceVotes "d1" demo_files)))
  = Some "opt1".
Proof.
  destruct (votesMap_hydration "d1" "q1" demo_files) as [_ Hiff].
  apply Hiff; [unfold oneVotePerVoter; simpl; compute_done|].
  exists (Vote.mk "v1" "q1" "opt1" "d1" "t1"). repeat split. by left.
Defined.

(* ===================================================================== *)
(** * Further properties of the polling subscriptions *)
(* ===================================================================== *)

Lemma votesRun_polled (results : list (Fetched (list Vote.t))) s :
  VotesSub.isSubscribed s = true →
  VotesSub.intervalId s = true →
  VotesSub.inFlight s = 0 →
  VotesSub.callback (votesRun (polledResults results) s)
  = (VotesSub.callback s ++ succeeded results)%list.
Proof.
  revert s. induction results as [|r results IH]; intros s Hsub Htimer Hfly.
  - simpl. by rewrite app_nil_r.
  - destruct s as [sub timer n calls]. simpl in Hsub, Htimer, Hfly. subst.
    change (polledResults (r :: results))
      with (Tick :: Settle r :: polledResults results).
    cbn [votesRun fold_left]. unfold votesRun in IH.
    destruct r as [votes|]; simpl; rewrite IH by done; simpl; [|done].
    by rewrite <- app_assoc.
Qed.

(** The vote-list subscription does not compare and does not stop on
    errors: when every fetch settles before the next tick, the callback
    receives the lists of the fetches that succeeded, all of them and in
    order (a list equal to the one before it included); a failed fetch
    delivers nothing and the next tick fetches again. *)
Theorem subscribeToVotes_delivers_every_fetch
    (first : Fetched (list Vote.t)) (results : list (Fetched (list Vote.t))) :
  VotesSub.callback (votesRun (Settle first :: polledResults results) subscribeToVotes)
  = succeeded (first :: results).
Proof.
  cbn [votesRun fold_left].
  destruct first as [votes|]; simpl; by rewrite (votesRun_polled results).
Qed.

Lemma questionRun_polledResults (results : list (Fetched (option string))) s :
  QuestionSub.isSubscribed s = true →
  QuestionSub.intervalId s = true →
  QuestionSub.inFlight s = 0 →
  QuestionSub.callback (questionRun (polledResults results) s)
  = (QuestionSub.callback s
     ++ changes (QuestionSub.lastQuestionId s) (orNull <$> succeeded results))%list.
Proof.
  revert s. induction results as [|r results IH]; intros s Hsub Htimer Hfly.
  - simpl. by rewrite app_nil_r.
  - destruct s as [sub lastId timer n calls]. simpl in Hsub, Htimer, Hfly. subst.
    change (polledResults (r :: results))
      with (Tick :: Settle r :: polledResults results).
    cbn [questionRun fold_left]. unfold questionRun in IH.
    destruct r as [v|]; simpl; [|by rewrite IH]. csimpl.
    case_bool_decide as Hne; simpl; rewrite IH by done; simpl; [|done].
    by rewrite <- app_assoc.
Qed.

(** The current-question subscription, when every fetch settles before the
    next tick: the callback receives exactly the changes of the sequence of
    ids fetched with success (each after [|| null]), starting from null; a
    failed fetch delivers nothing and the next tick fetches again. *)
Theorem subscribeToCurrentQuestion_delivers_changes
    (first : Fetched (option string)) (results : list (Fetched (option string))) :
  QuestionSub.callback
    (questionRun (Settle first :: polledResults results) subscribeToCurrentQuestion)
  = changes None (orNull <$> succeeded (first :: results)).
Proof.
  cbn [questionRun fold_left].
  destruct first as [v|]; simpl.
  - csimpl. case_bool_decide as Hne; simpl; by rewrite (questionRun_polledResults results).
  - by rewrite (questionRun_polledResults results).
Qed.




Lemma votesRun_inFlight_unsubscribed es s :
  VotesSub.isSubscribed s = false →
  (VotesSub.inFlight (votesRun es s) ≤ VotesSub.inFlight s)%nat.
Proof.
  revert s. induction es as [|e es IH]; intros s Hs; [done|]. simpl.
  destruct (votesStep_unsubscribed s e Hs) as [Hs' _].
  etrans; [by apply IH|]. clear IH Hs'.
  destruct s as [sub timer n calls]; simpl in Hs; subst.
  destruct e as [|[v|]|]; simpl; rewrite ?andb_false_r; try done;
    destruct n; simpl; lia.
Qed.

Lemma questionRun_inFlight_unsubscribed es s :
  QuestionSub.isSubscribed s = false →
  (QuestionSub.inFlight (questionRun es s) ≤ QuestionSub.inFlight s)%nat.
Proof.
  revert s. induction es as [|e es IH]; intros s Hs; [done|]. simpl.
  destruct (questionStep_unsubscribed s e Hs) as [Hs' _].
  etrans; [by apply IH|]. clear IH Hs'.
  destruct s as [sub lastId timer n calls]; simpl in Hs; subst.
  destruct e as [|[v|]|]; simpl; rewrite ?andb_false_r; try done;
    destruct n; simpl; lia.
Qed.

Lemma clearedRun_inFlight_unsubscribed es s :
  ClearedSub.isSubscribed s = false →
  (ClearedSub.inFlight (clearedRun es s) ≤ ClearedSub.inFlight s)%nat.
Proof.
  revert s. induction es as [|e es IH]; intros s Hs; [done|]. simpl.
  destruct (clearedStep_unsubscribed s e Hs) as [Hs' _].
  etrans; [by apply IH|]. clear IH Hs'.
  destruct s as [sub lastId timer n calls acks]; simpl in Hs; subst.
  destruct e as [|[v|]|]; simpl; rewrite ?andb_false_r; try done;
    destruct n; simpl; lia.
Qed.

(** After the returned function is called no subscription issues another
    fetch: whatever follows, the number of fetches in flight only goes
    down. *)
Theorem unsubscribe_stops_fetching :
  (∀ before after,
     (VotesSub.inFlight (votesRun (before ++ Unsubscribe :: after) subscribeToVotes)
      ≤ VotesSub.inFlight (votesRun before subscribeToVotes))%nat)
  ∧ (∀ before after,
     (QuestionSub.inFlight
        (questionRun (before ++ Unsubscribe :: after) subscribeToCurrentQuestion)
      ≤ QuestionSub.inFlight (questionRun before subscribeToCurrentQuestion))%nat)
  ∧ (∀ before after,
     (ClearedSub.inFlight
        (clearedRun (before ++ Unsubscribe :: after) subscribeToVoteCleared)
      ≤ ClearedSub.inFlight (clearedRun before subscribeToVoteCleared))%nat).
Proof.
  split; [|split]; intros before after.
  - unfold votesRun. rewrite fold_left_app. cbn [fold_left].
    by apply (votesRun_inFlight_unsubscribed after (votesStep _ Unsubscribe)).
  - unfold questionRun. rewrite fold_left_app. cbn [fold_left].
    by apply (questionRun_inFlight_unsubscribed after (questionStep _ Unsubscribe)).
  - unfold clearedRun. rewrite fold_left_app. cbn [fold_left].
    by apply (clearedRun_inFlight_unsubscribed after (clearedStep _ Unsubscribe)).
Qed.





(* ===================================================================== *)
(** * Further properties of the vote-status guard and of the files *)
(* ===================================================================== *)

(** The guard writes one key: [markAsVoted q] and [clearVoteStatus q] leave
    every entry of [localStorage] other than that of [q] as it is, and when
    [q] had no entry, clearing after marking gives the storage back as it
    was. *)
Theorem voteStatus_footprint (q : string) (ls : Storage) :
  (∀ key, key ≠ getStorageKey q →
     items (markAsVoted q ls).2 !! key = items ls !! key
     ∧ items (clearVoteStatus q ls) !! key = items ls !! key)
  ∧ available (markAsVoted q ls).2 = available ls
  ∧ available (clearVoteStatus q ls) = available ls
  ∧ (items ls !! getStorageKey q = None →
     clearVoteStatus q (markAsVoted q ls).2 = ls).
Proof.
  split; [|split; [apply markAsVoted_available|split; [apply clearVoteStatus_available|]]].
  - intros key Hkey. rewrite markAsVoted_items, clearVoteStatus_items.
    destruct (falsy q), (available ls); try done.
    by rewrite lookup_insert_ne, lookup_delete_ne.
  - intros Hnone. destruct ls as [m a]. simpl in Hnone.
    unfold clearVoteStatus, markAsVoted, setItem, removeItem. simpl.
    destruct (falsy q) eqn:Hq; simpl; [done|].
    destruct a; simpl; [|done]. by rewrite delete_insert_id.
Qed.

Lemma voteStatus_footprint_witness :
  clearVoteStatus "q1" (markAsVoted "q1" emptyStorage).2 = emptyStorage.
Proof.
  destruct (voteStatus_footprint "q1" emptyStorage) as (_ & _ & _ & Hback).
  apply Hback. reflexivity.
Defined.

(** Missing or unreadable files, in a data directory that exists.  Without
    the votes file the reading handlers answer with no votes and the first
    complete vote request creates the file with that one record.  Without
    the events file, and for an event id under which an object inherits
    nothing, [GET event] and [GET cleared] answer 404, [PUT
    current-question] with an id answers 404 and creates nothing, and the
    acknowledgement answers success and creates nothing; under a name
    inherited from [Object.prototype] the two reads are answered with 200,
    and [PUT current-question] and the acknowledgement answer success and
    create the events file, with no event and no question in it.  [DELETE
    votes] always writes the votes file, so it creates an empty one, and
    without the events file it never creates that. *)
Theorem missing_files (env : Env) (q o d eventId : string) (fs : Files) :
  (VOTES_FILE fs = None →
     getVotes q fs = [] ∧ getDeviceVotes d fs = []
     ∧ VOTES_FILE (deleteVotes q fs).2 = Some {| votes := [] |}
     ∧ (q ≠ "" → o ≠ "" → d ≠ "" →
        ∃ vote,
          postVotes env (mkVoteBody (Some q) (Some o) (Some d)) fs
          = ({| status := 201; json := VoteJson vote false |},
             writeVotesData {| votes := [vote] |} fs)))
  ∧ (EVENTS_FILE fs = None →
     (inherited eventId (BUILTINS fs) = Nothing →
        getEvent eventId fs = inl {| status := 404; json := ErrorJson "Event not found" |}
        ∧ getCleared eventId fs
          = inl {| status := 404; json := ErrorJson "Event not found" |}
        ∧ (q ≠ "" →
           putCurrentQuestion eventId (Some q) fs
           = ({| status := 404; json := ErrorJson "Event not found" |}, fs))
        ∧ postClearNotification eventId fs
          = ({| status := 200; json := SuccessJson |}, fs))
     ∧ (eventId ∈ prototypeNames →
        getEvent eventId fs = inl {| status := 200; json := InheritedJson |}
        ∧ (∃ cleared, getCleared eventId fs = inr cleared)
        ∧ (q ≠ "" →
           (putCurrentQuestion eventId (Some q) fs).1
           = {| status := 200; json := SuccessJson |}
           ∧ EVENTS_FILE (putCurrentQuestion eventId (Some q) fs).2
             = Some {| events := ∅; questions := ∅ |})
        ∧ (postClearNotification eventId fs).1
          = {| status := 200; json := SuccessJson |}
        ∧ EVENTS_FILE (postClearNotification eventId fs).2
          = Some {| events := ∅; questions := ∅ |})
     ∧ EVENTS_FILE (deleteVotes q fs).2 = None).
Proof.
  split.
  - intros Hv. split; [|split; [|split]].
    + unfold getVotes, readVotesData. by rewrite Hv.
    + unfold getDeviceVotes, readVotesData. by rewrite Hv.
    + rewrite deleteVotes_votes_file. unfold readVotesData. by rewrite Hv.
    + intros Hq Ho Hd. rewrite postVotes_create; [|done..|].
      * cbv zeta. unfold readVotesData. rewrite Hv. by eexists.
      * unfold readVotesData. rewrite Hv. constructor.
  - intros He.
    assert (readEventsData fs = {| events := ∅; questions := ∅ |}) as Hread.
    { unfold readEventsData. by rewrite He. }
    split; [|split].
    + intros Hin. split; [|split; [|split]].
      * unfold getEvent, jsLookup. rewrite Hread. cbn [events]. by rewrite lookup_empty, Hin.
      * unfold getCleared, jsLookup. rewrite Hread. cbn [events]. by rewrite lookup_empty, Hin.
      * intros Hq. unfold putCurrentQuestion, jsLookup.
        rewrite jsFalsy_Some by done. cbv zeta. rewrite Hread. cbn [events]. by rewrite lookup_empty, Hin.
      * unfold postClearNotification, jsLookup. cbv zeta.
        rewrite Hread. cbn [events]. by rewrite lookup_empty, Hin.
    + intros Hin%(inherited_member _ (BUILTINS fs)). split; [|split; [|split]].
      * unfold getEvent, jsLookup. rewrite Hread. cbn [events]. by rewrite lookup_empty, Hin.
      * unfold getCleared, jsLookup. rewrite Hread. cbn [events]. rewrite lookup_empty, Hin. by eexists.
      * intros Hq. unfold putCurrentQuestion, jsLookup.
        rewrite jsFalsy_Some by done. cbv zeta. rewrite Hread. cbn [events]. by rewrite lookup_empty, Hin.
      * unfold postClearNotification, jsLookup. cbv zeta.
        rewrite Hread. cbn [events]. by rewrite lookup_empty, Hin.
    + unfold deleteVotes, jsLookup. rewrite Hread. cbn [events questions].
      rewrite lookup_empty. simpl.
      destruct (truthy (inherited q (BUILTINS fs))); [|done].
      by rewrite lookup_empty, inherited_undefined.
Qed.

Lemma missing_files_witness :
  ∃ vote,
    postVotes (env_at "1700000000000" "abc123xyz" "2023-11-14T22:13:20.000Z")
      (mkVoteBody (Some "q1") (Some "opt1") (Some "d1")) no_files
    = ({| status := 201; json := VoteJson vote false |},
       writeVotesData {| votes := [vote] |} no_files).
Proof.
  destruct (missing_files (env_at "1700000000000" "abc123xyz" "2023-11-14T22:13:20.000Z")
              "q1" "opt1" "d1" "demo" no_files) as [Hvotes _].
  destruct (Hvotes eq_refl) as (_ & _ & _ & Hpost).
  exact (Hpost ltac:(discriminate) ltac:(discriminate) ltac:(discriminate)).
Defined.
